(** * fmap: field descriptors over reflect and unsafe

    A shallow embedding of [field.go]: the descriptor record [field], the
    offset based accessors [Get], [GetPtr] and [Set], and the tag path
    resolution [GetTagPath].

    The Go code leans on three packages of the standard library.  Each has a
    module of its own here, holding the part of it that [field.go] calls:
    - [reflect]: kinds, run-time type descriptors, assignability;
    - [strings]: [Split] on the separator the code uses;
    - [unsafe]: raw memory as a finite map from addresses to untyped data. *)

From Stdlib Require Import ZArith Ascii String List Lia.
From stdpp Require Import base option decidable numbers strings list gmap.

Local Open Scope Z_scope.
Local Open Scope string_scope.

(** ** reflect *)

Module reflect.

(** [reflect.Kind], in the order of the Go declaration. *)
Inductive Kind : Set :=
| Invalid | Bool
| Int | Int8 | Int16 | Int32 | Int64
| Uint | Uint8 | Uint16 | Uint32 | Uint64 | Uintptr
| Float32 | Float64 | Complex64 | Complex128
| Array | Chan | Func | Interface | Map | Ptr | Slice | String | Struct
| UnsafePointer.

#[global] Instance Kind_eq_dec : EqDecision Kind.
Proof. solve_decision. Defined.

(** The predeclared types of Go that are not composite. *)
Inductive Basic : Set :=
| Tbool
| Tint | Tint8 | Tint16 | Tint32 | Tint64
| Tuint | Tuint8 | Tuint16 | Tuint32 | Tuint64 | Tuintptr
| Tfloat32 | Tfloat64 | Tcomplex64 | Tcomplex128
| Tstring | TunsafePointer.

#[global] Instance Basic_eq_dec : EqDecision Basic.
Proof. solve_decision. Defined.

Definition BasicKind (b : Basic) : Kind :=
  match b with
  | Tbool => Bool
  | Tint => Int | Tint8 => Int8 | Tint16 => Int16 | Tint32 => Int32
  | Tint64 => Int64
  | Tuint => Uint | Tuint8 => Uint8 | Tuint16 => Uint16 | Tuint32 => Uint32
  | Tuint64 => Uint64 | Tuintptr => Uintptr
  | Tfloat32 => Float32 | Tfloat64 => Float64
  | Tcomplex64 => Complex64 | Tcomplex128 => Complex128
  | Tstring => String | TunsafePointer => UnsafePointer
  end.

Inductive ChanDir : Set := RecvDir | SendDir | BothDir.

#[global] Instance ChanDir_eq_dec : EqDecision ChanDir.
Proof. solve_decision. Defined.

(** [reflect.Type]: a run-time type descriptor.  Two descriptors denote
    identical Go types exactly when they are equal terms: a type literal is
    identified by its structure, a defined type by its declaration (package,
    name, method tables and the type it was declared from). [pkg] and
    [name] together name one declaration: two local types of the same name
    declared in different scopes are different declarations and carry
    different names here.

    [Defined] carries the two method tables the run time keeps for a
    declared type [T]: [methods] is the method set of [T], [ptrMethods]
    what the method set of [*T] adds to it. A method is a name with its
    signature, itself a descriptor; the name of a method that is not
    exported is qualified by its package, so that equal names are the same
    method.

    [StructOf] is the descriptor of a struct literal as the run time lays
    it out: the package of its unexported fields, the fields (name, type,
    raw tag string, byte offset, embedded or not), its size in bytes, and the
    methods that embedded fields promote to it and to a pointer to it. The
    raw tags are left empty in the examples, where [field] carries the tag
    decoded. *)
#[warnings="-register-all"]
Inductive rtype : Set :=
| Predeclared (b : Basic)
| Defined (pkg name : string)
          (methods ptrMethods : list (string * rtype)) (under : rtype)
| PtrTo (elem : rtype)
| SliceOf (elem : rtype)
| ArrayOf (len : N) (elem : rtype)
| MapOf (key elem : rtype)
| ChanOf (dir : ChanDir) (elem : rtype)
| FuncOf (ins outs : list rtype) (variadic : bool)
| StructOf (pkgPath : string)
           (fields : list (string * rtype * string * Z * bool)) (size : Z)
           (methods ptrMethods : list (string * rtype))
| InterfaceOf (methods : list (string * rtype)).

Coercion Predeclared : Basic >-> rtype.

Lemma rtype_eq_dec : ∀ t u : rtype, {t = u} + {t ≠ u}.
Proof.
  fix IH 1.
  assert (∀ l l' : list rtype, {l = l'} + {l ≠ l'})
    by (apply List.list_eq_dec; exact IH).
  assert (∀ p q : string * rtype, {p = q} + {p ≠ q})
    by (decide equality; apply string_dec).
  assert (∀ l l' : list (string * rtype), {l = l'} + {l ≠ l'})
    by (apply List.list_eq_dec; assumption).
  assert (∀ p q : string * rtype * string, {p = q} + {p ≠ q})
    by (decide equality; apply string_dec).
  assert (∀ p q : string * rtype * string * Z, {p = q} + {p ≠ q})
    by (decide equality; apply Z.eq_dec).
  assert (∀ p q : string * rtype * string * Z * bool, {p = q} + {p ≠ q})
    by (decide equality; apply Bool.bool_dec).
  assert (∀ l l' : list (string * rtype * string * Z * bool), {l = l'} + {l ≠ l'})
    by (apply List.list_eq_dec; assumption).
  decide equality;
    solve [ apply string_dec | apply N.eq_dec | apply Z.eq_dec
          | apply Bool.bool_dec | apply ChanDir_eq_dec | apply Basic_eq_dec ].
Defined.

#[global] Instance rtype_EqDecision : EqDecision rtype := rtype_eq_dec.

(** The type a declaration chain ends in: never itself [Defined]. *)
Fixpoint underlying (t : rtype) : rtype :=
  match t with
  | Defined _ _ _ _ u => underlying u
  | _ => t
  end.

(** [Type.Kind()]. *)
Definition Type_Kind (t : rtype) : Kind :=
  match underlying t with
  | Predeclared b => BasicKind b
  | Defined _ _ _ _ _ => Invalid
  | PtrTo _ => Ptr
  | SliceOf _ => Slice
  | ArrayOf _ _ => Array
  | MapOf _ _ => Map
  | ChanOf _ _ => Chan
  | FuncOf _ _ _ => Func
  | StructOf _ _ _ _ _ => Struct
  | InterfaceOf _ => Interface
  end.

(** [Type.Elem()]: the element type of an array, channel, map, pointer or
    slice type; it panics on every other kind, which is [None] here. *)
Definition Type_Elem (t : rtype) : option rtype :=
  match underlying t with
  | PtrTo e | SliceOf e | ArrayOf _ e | MapOf _ e | ChanOf _ e => Some e
  | _ => None
  end.

(** [Type.Size()] with 64-bit words: the bytes a value of the type takes
    in memory. A string is two words, a slice three, an interface two; a
    pointer, map, channel or function is one. *)
Definition BasicSize (b : Basic) : Z :=
  match b with
  | Tbool | Tint8 | Tuint8 => 1
  | Tint16 | Tuint16 => 2
  | Tint32 | Tuint32 | Tfloat32 => 4
  | Tint | Tint64 | Tuint | Tuint64 | Tuintptr | Tfloat64 | Tcomplex64
  | TunsafePointer => 8
  | Tcomplex128 | Tstring => 16
  end.

Fixpoint Type_Size (t : rtype) : Z :=
  match t with
  | Predeclared b => BasicSize b
  | Defined _ _ _ _ u => Type_Size u
  | PtrTo _ | MapOf _ _ | ChanOf _ _ | FuncOf _ _ _ => 8
  | SliceOf _ => 24
  | ArrayOf n e => Z.of_N n * Type_Size e
  | StructOf _ fs size _ _ =>
      (* the recorded size; it reaches the end of every field *)
      Z.max size
        ((fix fieldsEnd (l : list (string * rtype * string * Z * bool)) : Z :=
            match l with
            | [] => 0
            | (_, ft, _, offset, _) :: l' =>
                Z.max (offset + Type_Size ft) (fieldsEnd l')
            end) fs)
  | InterfaceOf _ => 16
  end.

(** [abi.Type.HasName]: the predeclared types are named as well. *)
Definition HasName (t : rtype) : bool :=
  match t with
  | Predeclared _ | Defined _ _ _ _ _ => true
  | _ => false
  end.

(** The methods an interface type asks for. *)
Definition ifaceMethods (t : rtype) : list (string * rtype) :=
  match underlying t with
  | InterfaceOf ms => ms
  | _ => []
  end.

(** Whether methods can be declared on a type with this underlying type:
    not on a pointer and not on an interface. *)
Definition receiverBase (u : rtype) : bool :=
  match underlying u with
  | PtrTo _ | InterfaceOf _ => false
  | _ => true
  end.

(** The method table of a type that is not an interface
    ([abi.Type.Uncommon]): a declared type has its own, a struct literal
    those that its embedded fields promote; a pointer to either has these and
    the methods on the pointer receiver; every other type has none. *)
Definition uncommonMethods (t : rtype) : list (string * rtype) :=
  match t with
  | Defined _ _ ms _ u => if receiverBase u then ms else []
  | StructOf _ _ _ ms _ => ms
  | PtrTo (Defined _ _ ms pms u) => if receiverBase u then ms ++ pms else []
  | PtrTo (StructOf _ _ _ ms pms) => ms ++ pms
  | _ => []
  end.

(** What the loop of [reflect.implements] decides. The run time keeps both
    tables sorted by name, and the loop finds the methods of [ts] among
    [vs] in one pass; that is, every method of [ts], name and signature,
    is in [vs]. Stated as such it does not depend on the order in which a
    table is written down. *)
Definition methodsIn (vs ts : list (string * rtype)) : bool :=
  forallb (λ tm, existsb (λ vm, bool_decide (tm = vm)) vs) ts.

(** [reflect.implements T V]: [T] is an interface type and [V] has its
    methods. *)
Definition implements (T V : rtype) : bool :=
  if decide (Type_Kind T = Interface) then
    match ifaceMethods T with
    | [] => true
    | ts =>
        if decide (Type_Kind V = Interface)
        then methodsIn (ifaceMethods V) ts
        else methodsIn (uncommonMethods V) ts
    end
  else false.

(** [reflect.haveIdenticalUnderlyingType T V true]. Identity of the parts
    ([haveIdenticalType] with tags compared) is identity of descriptors;
    two struct types are compared by package and field by field (name,
    type, tag, offset, embedded). *)
Definition haveIdenticalUnderlyingType (T V : rtype) : bool :=
  if decide (T = V) then true
  else if decide (Type_Kind T = Type_Kind V) then
    match underlying T, underlying V with
    | Predeclared _, Predeclared _ => true
    | ArrayOf n e, ArrayOf n' e' => bool_decide (n = n') && bool_decide (e = e')
    | ChanOf d e, ChanOf d' e' => bool_decide (d' = d) && bool_decide (e = e')
    | FuncOf i o v, FuncOf i' o' v' =>
        bool_decide (i = i') && bool_decide (o = o') && bool_decide (v = v')
    | InterfaceOf ms, InterfaceOf ms' =>
        match ms, ms' with [], [] => true | _, _ => false end
    | MapOf k e, MapOf k' e' => bool_decide (k = k') && bool_decide (e = e')
    | PtrTo e, PtrTo e' => bool_decide (e = e')
    | SliceOf e, SliceOf e' => bool_decide (e = e')
    | StructOf p fs _ _ _, StructOf p' fs' _ _ _ =>
        bool_decide (p = p') && bool_decide (fs = fs')
    | _, _ => false
    end
  else false.

(** [reflect.specialChannelAssignability T V]. *)
Definition specialChannelAssignability (T V : rtype) : bool :=
  match underlying T, underlying V with
  | ChanOf _ e, ChanOf d' e' =>
      bool_decide (d' = BothDir) && (negb (HasName T) || negb (HasName V))
      && bool_decide (e = e')
  | _, _ => false
  end.

(** [reflect.directlyAssignable T V]: a value of type [V] can be stored in
    a location of type [T] as it is. *)
Definition directlyAssignable (T V : rtype) : bool :=
  if decide (T = V) then true
  else if (HasName T && HasName V) || negb (bool_decide (Type_Kind T = Type_Kind V))
  then false
  else if bool_decide (Type_Kind T = Chan) && specialChannelAssignability T V
  then true
  else haveIdenticalUnderlyingType T V.

End reflect.

(** ** unsafe *)

Module unsafe.

(** [unsafe.Pointer] and [uintptr]: one 64-bit machine word. *)
Definition wordBits : Z := 64.
Definition wrap (a : Z) : Z := a mod 2 ^ wordBits.

(** [unsafe.Add(ptr, len)] is [Pointer(uintptr(ptr) + uintptr(len))]. *)
Definition Add (ptr len : Z) : Z := wrap (ptr + len).

End unsafe.

(** ** Values, interfaces and panics *)

(** What a memory location holds, apart from the type it is read at.  A
    pointer, map, channel or function is one word ([VPtr], nil is 0); a float
    is its IEEE bit pattern, so that equal values are the same datum. *)
#[warnings="-register-all"]
Inductive value : Set :=
| VBool (b : bool)
| VInt (n : Z)
| VFloat (bits : Z)
| VComplex (re im : Z)
| VString (s : string)
| VPtr (a : Z)
| VSlice (data len cap : Z)
| VArray (elems : list value)
| VStruct (fields : list value)
| VIface (dyn : option (reflect.rtype * value)).

(** A Go interface value as the language sees it: nil, or a dynamic type
    with the value boxed under it. Used for [val] and for what [Get] and
    [GetPtr] return. *)
Abbreviation any := (option (reflect.rtype * value)).

(** The same interface value as [getPtr] sees it, recast to an array of two
    [unsafe.Pointer]: the type word and the data word. When [obj] boxes a
    pointer the data word is that pointer; for a nil interface both words
    are zero. *)
Record eface : Set := { typeWord : option reflect.rtype; dataWord : Z }.

(** The instance behind the pointer [p] of type [*t], passed as [obj]. *)
Definition instanceAt (t : reflect.rtype) (p : Z) : eface :=
  {| typeWord := Some (reflect.PtrTo t); dataWord := p |}.

(** The ways a call can stop. *)
Inductive panic : Set :=
| UnhandledDefaultCase  (* panic("unhandled default case") *)
| InterfaceConversion   (* a failed type assertion val.(T) *)
| SetOnZeroValue        (* reflect: call of reflect.Value.Set on zero Value *)
| SetUnaddressable      (* reflect.Value.Set using unaddressable value *)
| NotAssignable         (* reflect.Set: value of type V is not assignable to type T *)
| ElemOfInvalidType     (* reflect: Elem of invalid type *)
| ElemOnNonPointer      (* reflect: call of reflect.Value.Elem on a Value that is no pointer *)
| InterfaceOnZeroValue  (* reflect: call of reflect.Value.Interface on zero Value *)
| InvalidMemory.        (* nil dereference, or an address that is not mapped *)

Inductive result (A : Type) : Type :=
| Ok (a : A)
| Panic (p : panic).
Arguments Ok {A} a.
Arguments Panic {A} p.

(** A call runs on the memory and leaves a memory behind, also when it
    panics: the live locations and what each holds. *)
Definition exec (A : Type) : Type := gmap Z value → result A * gmap Z value.

#[global] Instance exec_ret : MRet exec := λ A a m, (Ok a, m).
#[global] Instance exec_bind : MBind exec :=
  λ A B k c m,
    match c m with
    | (Ok a, m') => k a m'
    | (Panic p, m') => (Panic p, m')
    end.

Definition throw {A : Type} (p : panic) : exec A := λ m, (Panic p, m).

(** Reading and writing through a pointer. Address 0 is never live.

    Memory is kept by location: an address that a field descriptor points
    to holds the whole value of that field. A record field and the fields
    nested in it have locations of their own here, and a write to one is not
    carried over to the other; so what is proved below about a write speaks
    of the location written, or of locations whose byte extents lie apart
    from it. *)
Definition load (ptr : Z) : exec value :=
  λ m, if decide (ptr = 0) then (Panic InvalidMemory, m)
       else match m !! ptr with
            | Some v => (Ok v, m)
            | None => (Panic InvalidMemory, m)
            end.

Definition store (ptr : Z) (v : value) : exec unit :=
  λ m, if decide (ptr = 0) then (Panic InvalidMemory, m)
       else match m !! ptr with
            | Some _ => (Ok (), <[ptr := v]> m)
            | None => (Panic InvalidMemory, m)
            end.

Arguments load : simpl never.
Arguments store : simpl never.

Definition live (m : gmap Z value) (ptr : Z) : Prop :=
  ptr ≠ 0 ∧ is_Some (m !! ptr).

#[global] Instance live_dec m ptr : Decision (live m ptr).
Proof. unfold live. apply _. Defined.

(** ** reflect.Value *)

Module Value.
Import reflect.

(** A [reflect.Value]: the zero Value, a value held by copy, or a value
    that sits at an address (addressable and settable). *)
Inductive Value : Set :=
| Zero
| Held (t : rtype) (v : value)
| At (t : rtype) (ptr : Z).

(** [reflect.NewAt(typ, p)]: a pointer of type [*typ] to [p]. *)
Definition NewAt (typ : rtype) (p : Z) : Value := Held (PtrTo typ) (VPtr p).

(** [reflect.ValueOf(i)]: the zero Value for a nil interface. *)
Definition ValueOf (i : any) : Value :=
  match i with
  | Some (t, v) => Held t v
  | None => Zero
  end.

(** [Value.Elem()] on a pointer: what it points to, the zero Value when
    the pointer is nil. (On an interface Value it would unbox; the code
    does not use that.) *)
Definition Elem (v : Value) : exec Value :=
  match v with
  | Held t (VPtr p) =>
      match underlying t with
      | PtrTo e => if decide (p = 0) then mret Zero else mret (At e p)
      | _ => throw ElemOnNonPointer
      end
  | At t ptr =>
      match underlying t with
      | PtrTo e =>
          w ← load ptr;
          match w with
          | VPtr p => if decide (p = 0) then mret Zero else mret (At e p)
          | _ => throw InvalidMemory
          end
      | _ => throw ElemOnNonPointer
      end
  | _ => throw ElemOnNonPointer
  end.

(** [Value.Interface()]: the value boxed under the Value's type; a copy
    of what is stored when the Value sits at an address. *)
Definition Interface (v : Value) : exec any :=
  match v with
  | Zero => throw InterfaceOnZeroValue
  | Held t x => mret (Some (t, x))
  | At t ptr => x ← load ptr; mret (Some (t, x))
  end.

(** [reflect.Value.assignTo]: [x] of type [V] as a value of type [T],
    as it is when [V] is directly assignable to [T], boxed when [T] is an
    interface type that [V] implements. *)
Definition assignTo (T V : rtype) (x : value) : exec value :=
  if directlyAssignable T V then mret x
  else if implements T V then mret (VIface (Some (V, x)))
  else throw NotAssignable.

(** [dest.Set(source)] ([Set] is reserved, hence [Set_]): [dest] must sit
    at an address, [source] must not be the zero Value and its type must
    be assignable to that of [dest]. *)
Definition Set_ (dest source : Value) : exec unit :=
  match dest with
  | At T ptr =>
      match source with
      | Zero => throw SetOnZeroValue
      | Held V x => y ← assignTo T V x; store ptr y
      | At V p => x ← load p; y ← assignTo T V x; store ptr y
      end
  | Held _ _ => throw SetUnaddressable
  | Zero => throw SetOnZeroValue
  end.

End Value.

(** ** strings *)

Module strings.

(** [strings.Split(s, sep)] for a separator of one byte: the pieces of [s]
    between the separators, in order; one piece more than there are
    separators, so never an empty list. *)
Fixpoint Split (s : string) (sep : ascii) : list string :=
  match s with
  | EmptyString => [EmptyString]
  | String c s' =>
      if Ascii.eqb c sep then EmptyString :: Split s' sep
      else match Split s' sep with
           | piece :: rest => String c piece :: rest
           | [] => [String c EmptyString]
           end
  end.

End strings.

(** ** The field descriptor *)

Import (coercions) reflect.
Import reflect(rtype(..), Basic(..), Type_Kind, Type_Elem).

(** [reflect.StructTag], decoded: the key and value pairs of the tag string
    in the order they are written. *)
Abbreviation StructTag := (list (string * string)).

(** [StructTag.Lookup(key)]: the value of the first pair under [key]. *)
Fixpoint Lookup (tag : StructTag) (key : string) : option string :=
  match tag with
  | [] => None
  | (name, val) :: rest => if decide (key = name) then Some val else Lookup rest key
  end.

(** [type field struct]: the embedded [reflect.StructField], [structPath]
    and [parent]. [parent] is a pointer to another descriptor: [None] for
    nil, else a reference that the descriptor heap resolves. [Type] is
    reserved, hence [Type_]. *)
Record field : Set := {
  Name : string;
  PkgPath : string;
  Type_ : rtype;
  Tag : StructTag;
  Offset : Z;
  Index : list Z;
  Anonymous : bool;
  structPath : string;
  parent : option nat;
}.

Definition GetName (f : field) : string := Name f.
Definition GetPkgPath (f : field) : string := PkgPath f.
Definition GetType (f : field) : rtype := Type_ f.
Definition GetTag (f : field) : StructTag := Tag f.
Definition GetOffset (f : field) : Z := Offset f.
Definition GetIndex (f : field) : list Z := Index f.
Definition GetAnonymous (f : field) : bool := Anonymous f.
Definition IsExported (f : field) : bool := bool_decide (PkgPath f = "").
Definition GetStructPath (f : field) : string := structPath f.
Definition GetParent (f : field) : option nat := parent f.

(** [getPtr]: the data word of [obj] moved by the field's offset. *)
Definition getPtr (f : field) (obj : eface) : Z :=
  let confPointer := dataWord obj in
  let ptToField := unsafe.Add confPointer (Offset f) in
  ptToField.

(** [setPtrValue[T]]: assert [val] to [T], then write through [ptr]. *)
Definition setPtrValue (T : rtype) (ptr : Z) (val : any) : exec unit :=
  match val with
  | Some (V, x) => if decide (V = T) then store ptr x else throw InterfaceConversion
  | None => throw InterfaceConversion
  end.

(** [getPtrValue[T]]: read through [ptr] at type [T]. *)
Definition getPtrValue (T : rtype) (ptr : Z) : exec any :=
  x ← load ptr; mret (Some (T, x)).

(** [GetPtr]. *)
Definition GetPtr (f : field) (obj : eface) : exec any :=
  Value.Interface (Value.NewAt (Type_ f) (getPtr f obj)).

(** [Get]. *)
Definition Get (f : field) (obj : eface) : exec any :=
  let ptrToField := getPtr f obj in
  let kind := Type_Kind (Type_ f) in
  '(isPtr, kind) ←
    (if decide (kind = reflect.Ptr)
     then match Type_Elem (Type_ f) with
          | Some e => mret (true, Type_Kind e)
          | None => throw ElemOfInvalidType
          end
     else mret (false, kind));
  if (isPtr : bool) then
    match kind with
    | reflect.String => getPtrValue (PtrTo Tstring) ptrToField
    | reflect.Int => getPtrValue (PtrTo Tint) ptrToField
    | reflect.Int8 => getPtrValue (PtrTo Tint8) ptrToField
    | reflect.Int16 => getPtrValue (PtrTo Tint16) ptrToField
    | reflect.Int32 => getPtrValue (PtrTo Tint32) ptrToField
    | reflect.Int64 => getPtrValue (PtrTo Tint64) ptrToField
    | reflect.Uint => getPtrValue (PtrTo Tuint) ptrToField
    | reflect.Uint8 => getPtrValue (PtrTo Tuint8) ptrToField
    | reflect.Uint16 => getPtrValue (PtrTo Tuint16) ptrToField
    | reflect.Uint32 => getPtrValue (PtrTo Tuint32) ptrToField
    | reflect.Uint64 => getPtrValue (PtrTo Tuint64) ptrToField
    | reflect.Float32 => getPtrValue (PtrTo Tfloat32) ptrToField
    | reflect.Float64 => getPtrValue (PtrTo Tfloat64) ptrToField
    | reflect.Bool => getPtrValue (PtrTo Tbool) ptrToField
    | reflect.Struct =>
        v ← Value.Elem (Value.NewAt (Type_ f) ptrToField); Value.Interface v
    | reflect.Slice =>
        v ← Value.Elem (Value.NewAt (Type_ f) ptrToField); Value.Interface v
    | reflect.Array =>
        v ← Value.Elem (Value.NewAt (Type_ f) ptrToField); Value.Interface v
    | _ => throw UnhandledDefaultCase
    end
  else
    match kind with
    | reflect.String => getPtrValue Tstring ptrToField
    | reflect.Int => getPtrValue Tint ptrToField
    | reflect.Int8 => getPtrValue Tint8 ptrToField
    | reflect.Int16 => getPtrValue Tint16 ptrToField
    | reflect.Int32 => getPtrValue Tint32 ptrToField
    | reflect.Int64 => getPtrValue Tint64 ptrToField
    | reflect.Uint => getPtrValue Tuint ptrToField
    | reflect.Uint8 => getPtrValue Tuint8 ptrToField
    | reflect.Uint16 => getPtrValue Tuint16 ptrToField
    | reflect.Uint32 => getPtrValue Tuint32 ptrToField
    | reflect.Uint64 => getPtrValue Tuint64 ptrToField
    | reflect.Float32 => getPtrValue Tfloat32 ptrToField
    | reflect.Float64 => getPtrValue Tfloat64 ptrToField
    | reflect.Bool => getPtrValue Tbool ptrToField
    | reflect.Struct =>
        v ← Value.Elem (Value.NewAt (Type_ f) ptrToField); Value.Interface v
    | reflect.Slice =>
        v ← Value.Elem (Value.NewAt (Type_ f) ptrToField); Value.Interface v
    | reflect.Array =>
        v ← Value.Elem (Value.NewAt (Type_ f) ptrToField); Value.Interface v
    | _ => throw UnhandledDefaultCase
    end.

(** [Set] ([Set] is reserved, hence [Set_]). *)
Definition Set_ (f : field) (obj : eface) (val : any) : exec unit :=
  let ptrToField := getPtr f obj in
  let kind := Type_Kind (Type_ f) in
  '(isPtr, kind) ←
    (if decide (kind = reflect.Ptr)
     then match Type_Elem (Type_ f) with
          | Some e => mret (true, Type_Kind e)
          | None => throw ElemOfInvalidType
          end
     else mret (false, kind));
  if (isPtr : bool) then
    match kind with
    | reflect.String => setPtrValue (PtrTo Tstring) ptrToField val
    | reflect.Int => setPtrValue (PtrTo Tint) ptrToField val
    | reflect.Int8 => setPtrValue (PtrTo Tint8) ptrToField val
    | reflect.Int16 => setPtrValue (PtrTo Tint16) ptrToField val
    | reflect.Int32 => setPtrValue (PtrTo Tint32) ptrToField val
    | reflect.Int64 => setPtrValue (PtrTo Tint64) ptrToField val
    | reflect.Uint => setPtrValue (PtrTo Tuint) ptrToField val
    | reflect.Uint8 => setPtrValue (PtrTo Tuint8) ptrToField val
    | reflect.Uint16 => setPtrValue (PtrTo Tuint16) ptrToField val
    | reflect.Uint32 => setPtrValue (PtrTo Tuint32) ptrToField val
    | reflect.Uint64 => setPtrValue (PtrTo Tuint64) ptrToField val
    | reflect.Float32 => setPtrValue (PtrTo Tfloat32) ptrToField val
    | reflect.Float64 => setPtrValue (PtrTo Tfloat64) ptrToField val
    | reflect.Bool => setPtrValue (PtrTo Tbool) ptrToField val
    | _ =>
        let dest := Value.NewAt (Type_ f) ptrToField in
        dest ← Value.Elem dest;
        let source := Value.ValueOf val in
        Value.Set_ dest source
    end
  else
    match kind with
    | reflect.String => setPtrValue Tstring ptrToField val
    | reflect.Int => setPtrValue Tint ptrToField val
    | reflect.Int8 => setPtrValue Tint8 ptrToField val
    | reflect.Int16 => setPtrValue Tint16 ptrToField val
    | reflect.Int32 => setPtrValue Tint32 ptrToField val
    | reflect.Int64 => setPtrValue Tint64 ptrToField val
    | reflect.Uint => setPtrValue Tuint ptrToField val
    | reflect.Uint8 => setPtrValue Tuint8 ptrToField val
    | reflect.Uint16 => setPtrValue Tuint16 ptrToField val
    | reflect.Uint32 => setPtrValue Tuint32 ptrToField val
    | reflect.Uint64 => setPtrValue Tuint64 ptrToField val
    | reflect.Float32 => setPtrValue Tfloat32 ptrToField val
    | reflect.Float64 => setPtrValue Tfloat64 ptrToField val
    | reflect.Bool => setPtrValue Tbool ptrToField val
    | _ =>
        let dest := Value.NewAt (Type_ f) ptrToField in
        dest ← Value.Elem dest;
        let source := Value.ValueOf val in
        Value.Set_ dest source
    end.

(** [GetTagPath]. The receiver's parent is reached through the descriptor
    heap [deref], which resolves every reference; [fuel] bounds the depth of
    the recursion and [None] means that it ran out. *)
Fixpoint GetTagPath (fuel : nat) (deref : nat → field) (f : field)
    (tag : string) (ignoreParentTagMissing : bool) : option string :=
  match fuel with
  | O => None
  | S fuel =>
      let tagPath := "" in
      let tagPath :=
        match Lookup (Tag f) tag with
        | Some val =>
            let vals := strings.Split val ","%char in
            match vals with
            | v0 :: _ =>
                if (0 <? length vals)%nat && (0 <? String.length v0)%nat
                then v0 else tagPath
            | [] => tagPath
            end
        | None => tagPath
        end in
      if decide (tagPath = "") then Some tagPath
      else match parent f with
           | None => Some tagPath
           | Some p =>
               parentTag ← GetTagPath fuel deref (deref p) tag ignoreParentTagMissing;
               if bool_decide (parentTag = "") && negb ignoreParentTagMissing
               then Some ""
               else if decide (parentTag = "") then Some tagPath
               else Some (parentTag +:+ "." +:+ tagPath)
           end
  end.

(** [type IField interface], with [*field] as its implementation. The
    methods that follow parent pointers take the bound and the descriptor
    heap that [GetTagPath] takes. *)
Module IField.

Class IField (F : Type) : Type := {
  GetName : F → string;
  GetPkgPath : F → string;
  GetType : F → rtype;
  GetTag : F → StructTag;
  GetOffset : F → Z;
  GetIndex : F → list Z;
  GetAnonymous : F → bool;
  IsExported : F → bool;
  Get : F → eface → exec any;
  GetPtr : F → eface → exec any;
  Set_ : F → eface → any → exec unit;
  GetStructPath : F → string;
  GetTagPath : nat → (nat → F) → F → string → bool → option string;
  GetParent : F → option nat;
}.

End IField.

#[global] Instance field_IField : IField.IField field := {|
  IField.GetName := GetName;
  IField.GetPkgPath := GetPkgPath;
  IField.GetType := GetType;
  IField.GetTag := GetTag;
  IField.GetOffset := GetOffset;
  IField.GetIndex := GetIndex;
  IField.GetAnonymous := GetAnonymous;
  IField.IsExported := IsExported;
  IField.Get := Get;
  IField.GetPtr := GetPtr;
  IField.Set_ := Set_;
  IField.GetStructPath := GetStructPath;
  IField.GetTagPath := GetTagPath;
  IField.GetParent := GetParent;
|}.

(** * Specification level notions *)

(** The closed set of kinds with a typed fast path, each with the
    predeclared type the switch instantiates the accessor at. *)
Definition kindBasic (k : reflect.Kind) : option reflect.Basic :=
  match k with
  | reflect.String => Some Tstring
  | reflect.Int => Some Tint
  | reflect.Int8 => Some Tint8
  | reflect.Int16 => Some Tint16
  | reflect.Int32 => Some Tint32
  | reflect.Int64 => Some Tint64
  | reflect.Uint => Some Tuint
  | reflect.Uint8 => Some Tuint8
  | reflect.Uint16 => Some Tuint16
  | reflect.Uint32 => Some Tuint32
  | reflect.Uint64 => Some Tuint64
  | reflect.Float32 => Some Tfloat32
  | reflect.Float64 => Some Tfloat64
  | reflect.Bool => Some Tbool
  | _ => None
  end.

Definition primitiveKind (k : reflect.Kind) : bool :=
  match kindBasic k with Some _ => true | None => false end.

(** Record, sequence and array. *)
Definition compositeKind (k : reflect.Kind) : bool :=
  match k with
  | reflect.Struct | reflect.Slice | reflect.Array => true
  | _ => false
  end.

(** The kind the accessors dispatch on: that of the declared type, or of
    what it points to when the declared type is a pointer. *)
Definition derefKind (t : rtype) : reflect.Kind :=
  match reflect.underlying t with
  | PtrTo e => Type_Kind e
  | _ => Type_Kind t
  end.

(** The type the fast path asserts [val] to and reads the location at: the
    predeclared type of the kind, behind an unnamed pointer when the declared
    type is a pointer. [None] outside the closed set. *)
Definition accessType (t : rtype) : option rtype :=
  match reflect.underlying t with
  | PtrTo e => b ← kindBasic (Type_Kind e); Some (PtrTo (Predeclared b))
  | _ => b ← kindBasic (Type_Kind t); Some (Predeclared b)
  end.

Definition supportedKind (k : reflect.Kind) : bool :=
  primitiveKind k || compositeKind k.

(** Assignability as [reflect.Value.Set] decides it. *)
Definition assignable (T V : rtype) : bool :=
  reflect.directlyAssignable T V || reflect.implements T V.

(** What the location of type [T] holds after a value [x] of type [V] was
    assigned to it. *)
Definition assigned (T V : rtype) (x : value) : value :=
  if reflect.directlyAssignable T V then x else VIface (Some (V, x)).

(** The dynamic type of an interface value, if it is not nil. *)
Definition dynType (val : any) : option rtype := fst <$> val.

(** An assignment through a pointer that was handed out as an interface
    value. *)
Definition writeThrough (ref : any) (x : value) : exec unit :=
  match ref with
  | Some (_, VPtr p) => store p x
  | _ => throw InvalidMemory
  end.

(** The first comma-delimited segment of a tag value. *)
Fixpoint firstSegment (val : string) : string :=
  match val with
  | EmptyString => EmptyString
  | String c rest =>
      if Ascii.eqb c ","%char then EmptyString else String c (firstSegment rest)
  end.

(** A field's own segment under a tag key: empty when the key is absent. *)
Definition tagSegment (f : field) (tag : string) : string :=
  match Lookup (Tag f) tag with
  | Some val => firstSegment val
  | None => ""
  end.

(** [ancestors deref f n]: the parent chain of [f] is finite and free of
    cycles, and [n] descriptors long. *)
Inductive ancestors (deref : nat → field) : field → nat → Prop :=
| ancestors_root f : parent f = None → ancestors deref f 0
| ancestors_step f p n :
    parent f = Some p → ancestors deref (deref p) n → ancestors deref f (S n).

(** A read that follows a pointer field: the pointer stored in the field is
    dereferenced and the composite behind it copied out, boxed under the
    dereferenced type. [Get] is compared with it below. *)
Definition derefCopy (f : field) (obj : eface) : exec any :=
  match Type_Elem (Type_ f) with
  | Some e =>
      w ← load (getPtr f obj);
      match w with
      | VPtr p => x ← load p; mret (Some (e, x))
      | _ => throw InvalidMemory
      end
  | None => throw ElemOfInvalidType
  end.

(** ** Notions for the further properties *)

(** The dynamic type of what [Get] returns: the type of the fast path, the
    declared type on the composite kinds. *)
Definition resultType (t : rtype) : rtype := default t (accessType t).

(** Whether [Set] takes a value of dynamic type [V] for a field declared
    [t]: the asserted type on the fast path, an assignable one on the
    fallback. *)
Definition accepts (t V : rtype) : bool :=
  match accessType t with
  | Some T => bool_decide (V = T)
  | None => assignable t V
  end.

(** What [Set] leaves in the field's location for a value [x] of type [V]. *)
Definition storedAs (t V : rtype) (x : value) : value :=
  match accessType t with
  | Some _ => x
  | None => assigned t V x
  end.

(** The two-word view of an interface value whose data word is known: the
    nil interface and a boxed pointer. Other values sit behind a copy made
    by the run time, whose address is not part of the model. *)
Definition header (i : any) : option eface :=
  match i with
  | None => Some {| typeWord := None; dataWord := 0 |}
  | Some (t, VPtr p) => Some {| typeWord := Some t; dataWord := p |}
  | Some _ => None
  end.

(** The descriptors from [f] up its parent chain, [f] first, at most [n]
    parents far. *)
Fixpoint lineage (n : nat) (deref : nat → field) (f : field) : list field :=
  f :: match n with
       | O => []
       | S n' =>
           match parent f with
           | Some p => lineage n' deref (deref p)
           | None => []
           end
       end.

(** The own segments along the chain, leaf first. *)
Definition segments (n : nat) (deref : nat → field) (f : field) (tag : string)
  : list string :=
  map (λ g, tagSegment g tag) (lineage n deref f).

(** The segments before the first empty one. *)
Fixpoint leading (l : list string) : list string :=
  match l with
  | [] => []
  | s :: rest => if decide (s = "") then [] else s :: leading rest
  end.

Definition allPresent (l : list string) : bool :=
  forallb (λ s, negb (bool_decide (s = ""))) l.

(** Whether the byte [c] occurs in [s]. *)
Fixpoint occurs (c : ascii) (s : string) : bool :=
  match s with
  | EmptyString => false
  | String d rest => Ascii.eqb d c || occurs c rest
  end.

(** * Instances

    Descriptors as the external builder would hand them out, and the
    memory of one live instance, for the examples below. *)

(** A top-level field, and the same field placed under the parent [p]
    whose struct path is [path]. *)
Definition newField (name : string) (t : rtype) (tag : StructTag) (offset : Z)
  : field :=
  {| Name := name; PkgPath := ""; Type_ := t; Tag := tag; Offset := offset;
     Index := [0]; Anonymous := false; structPath := name; parent := None |}.

Definition under (p : nat) (path : string) (f : field) : field :=
  {| Name := Name f; PkgPath := PkgPath f; Type_ := Type_ f; Tag := Tag f;
     Offset := Offset f; Index := 0 :: Index f; Anonymous := Anonymous f;
     structPath := path +:+ "." +:+ Name f; parent := Some p |}.

(** [type Celsius float64], [type IDs []int] and a struct literal. *)
Definition Celsius : rtype := Defined "main" "Celsius" [] [] Tfloat64.
Definition IDs : rtype := Defined "main" "IDs" [] [] (SliceOf Tint).
Definition Point : rtype :=
  StructOf "" [("X", Predeclared Tint, "", 0, false);
               ("Y", Predeclared Tint, "", 8, false)] 16 [] [].

(** A type with a method on the value receiver and one on the pointer
    receiver, and an interface that asks for both. *)
Definition sigString : rtype := FuncOf [] [Predeclared Tstring] false.
Definition sigReset : rtype := FuncOf [] [] false.
Definition Buf : rtype :=
  Defined "main" "Buf" [("String", sigString)] [("Reset", sigReset)]
          (StructOf "" [("n", Predeclared Tint, "", 0, false)] 8 [] []).
Definition ResetStringer : rtype :=
  InterfaceOf [("Reset", sigReset); ("String", sigString)].

(** An instance at address 4096 with one field at offset 8; the field
    holds a pointer to address 8192, where a [Point] sits. *)
Definition base : Z := 4096.
Definition heap0 : gmap Z value :=
  {[ 4104 := VPtr 8192; 8192 := VStruct [VInt 3; VInt 4] ]}.
Definition self (t : rtype) : eface := instanceAt t base.

(** Other instances at the same address: the field at offset 8 holds the
    float64 zero, or the nil slice. *)
Definition heap1 : gmap Z value := {[ 4104 := VFloat 0 ]}.
Definition heap2 : gmap Z value := {[ 4104 := VSlice 0 0 0 ]}.

(** 37.0 as a float64. *)
Definition f37 : value := VFloat 0x4042800000000000.

(** A leaf tagged [x] under a parent tagged [p] under a root tagged [g]. *)
Definition Leaf : rtype :=
  StructOf "" [("C", Predeclared Tstring, "", 0, false)] 16 [] [].
Definition Mid : rtype := StructOf "" [("B", Leaf, "", 0, false)] 16 [] [].

Definition chain3 (r : nat) : field :=
  match r with
  | 0%nat => newField "A" Mid [("json", "g")] 0
  | 1%nat => under 0 "A" (newField "B" Leaf [("json", "p,omitempty")] 0)
  | _ => under 1 "A.B" (newField "C" Tstring [("json", "x"); ("yaml", "c")] 0)
  end.

(** A leaf tagged [x] under a parent without tag. *)
Definition untaggedParent (r : nat) : field :=
  match r with
  | 0%nat => newField "A" Leaf [] 0
  | _ => under 0 "A" (newField "C" Tstring [("json", "x")] 0)
  end.

(** A parent chain with a cycle: the descriptor is its own parent. *)
Definition ownParent (r : nat) : field :=
  under r "A" (newField "A" Leaf [("json", "a")] 0).

(** * Type descriptors *)

Lemma underlying_not_Defined (t : rtype) pkg name ms pms u :
  reflect.underlying t ≠ Defined pkg name ms pms u.
Proof.
  revert pkg name ms pms u.
  induction t; cbn; intros; try discriminate. apply IHt.
Qed.

(** [Get] and [Set] call [Elem] on pointer types only, where it is defined. *)
Lemma Type_Elem_Ptr (t : rtype) :
  Type_Kind t = reflect.Ptr → is_Some (Type_Elem t).
Proof.
  unfold Type_Kind, Type_Elem.
  destruct (reflect.underlying t) as [b| | | | | | | | |]; try discriminate;
    [by destruct b | by eexists].
Qed.

(** * Memory *)

Section Memory.
Context (m : gmap Z value) (ptr : Z).

Lemma load_live : live m ptr → ∃ x, m !! ptr = Some x ∧ load ptr m = (Ok x, m).
Proof.
  intros [Hnz [x Hx]]. exists x. split; [assumption|].
  unfold load. rewrite decide_False by assumption. by rewrite Hx.
Qed.

Lemma store_live x : live m ptr → store ptr x m = (Ok (), <[ptr := x]> m).
Proof.
  intros [Hnz [y Hy]]. unfold store.
  rewrite decide_False by assumption. by rewrite Hy.
Qed.

Lemma live_insert x : live m ptr → live (<[ptr := x]> m) ptr.
Proof. intros [Hnz _]. split; [assumption|]. rewrite lookup_insert_eq. eauto. Qed.

Lemma load_insert x : ptr ≠ 0 → load ptr (<[ptr := x]> m) = (Ok x, <[ptr := x]> m).
Proof.
  intros Hnz. unfold load. rewrite decide_False by assumption.
  by rewrite lookup_insert_eq.
Qed.

Lemma load_result : load ptr m = (Panic InvalidMemory, m) ∨ ∃ x, load ptr m = (Ok x, m).
Proof.
  unfold load. destruct (decide (ptr = 0)); [by left|].
  destruct (m !! ptr); [right; eauto | by left].
Qed.

Lemma store_panics x p m' : store ptr x m = (Panic p, m') → m' = m.
Proof.
  unfold store. destruct (decide (ptr = 0)); [congruence|].
  destruct (m !! ptr); congruence.
Qed.
End Memory.


(** * The kind dispatch *)

(** [Get] and [Set] are one switch each, twice; these equations say which
    branch a declared type selects. *)
Section Dispatch.
Context (f : field) (obj : eface).

Local Ltac by_cases :=
  unfold Get, Set_, accessType, derefKind, primitiveKind, Type_Kind, Type_Elem;
  destruct (reflect.underlying (Type_ f)) as [b| | e | | | | | | |];
  [ destruct b | idtac
  | destruct (reflect.underlying e) as [b| | | | | | | | |]; [destruct b | ..]
  | .. ];
  cbv -[getPtrValue setPtrValue getPtr Value.Elem Value.Interface Value.Set_
        Value.NewAt Value.ValueOf Type_];
  try congruence; try reflexivity.

Lemma Get_fast T :
  accessType (Type_ f) = Some T → Get f obj = getPtrValue T (getPtr f obj).
Proof. by_cases; intros [= <-]; reflexivity. Qed.

Lemma Set_fast T val :
  accessType (Type_ f) = Some T →
  Set_ f obj val = setPtrValue T (getPtr f obj) val.
Proof. by_cases; intros [= <-]; reflexivity. Qed.

Lemma Get_composite :
  compositeKind (derefKind (Type_ f)) = true →
  Get f obj = (v ← Value.Elem (Value.NewAt (Type_ f) (getPtr f obj));
               Value.Interface v).
Proof. by_cases. Qed.

Lemma Get_default :
  primitiveKind (derefKind (Type_ f)) = false →
  compositeKind (derefKind (Type_ f)) = false →
  Get f obj = throw UnhandledDefaultCase.
Proof. by_cases. Qed.

Lemma Set_default val :
  primitiveKind (derefKind (Type_ f)) = false →
  Set_ f obj val = (dest ← Value.Elem (Value.NewAt (Type_ f) (getPtr f obj));
                    Value.Set_ dest (Value.ValueOf val)).
Proof. by_cases. Qed.

Lemma accessType_primitive :
  is_Some (accessType (Type_ f)) ↔ primitiveKind (derefKind (Type_ f)) = true.
Proof.
  unfold accessType, derefKind, primitiveKind.
  destruct (reflect.underlying (Type_ f));
    match goal with |- context [kindBasic ?k] => destruct (kindBasic k) end;
    cbn; split; intros H; try done; try (by eexists); by destruct H.
Qed.
End Dispatch.

(** * Set then Get *)

Section RoundTrip.
Context (f : field) (obj : eface) (m : gmap Z value).

Lemma setPtrValue_ok T x :
  live m (getPtr f obj) →
  setPtrValue T (getPtr f obj) (Some (T, x)) m = (Ok (), <[getPtr f obj := x]> m).
Proof.
  intros Hl. unfold setPtrValue. rewrite decide_True by reflexivity.
  by apply store_live.
Qed.

Lemma getPtrValue_live T x :
  getPtr f obj ≠ 0 → m !! getPtr f obj = Some x →
  getPtrValue T (getPtr f obj) m = (Ok (Some (T, x)), m).
Proof.
  intros Hnz Hx. unfold getPtrValue, mbind, exec_bind, load.
  rewrite decide_False by assumption. by rewrite Hx.
Qed.

Lemma setPtrValue_mismatch T val :
  dynType val ≠ Some T →
  setPtrValue T (getPtr f obj) val m = (Panic InterfaceConversion, m).
Proof.
  intros Hne. unfold setPtrValue. destruct val as [[V x]|]; [|reflexivity].
  destruct (decide (V = T)) as [->|]; [|reflexivity]. by destruct Hne.
Qed.
End RoundTrip.

Lemma accessType_declared (b : reflect.Basic) :
  primitiveKind (reflect.BasicKind b) = true →
  accessType (Predeclared b) = Some (Predeclared b)
  ∧ accessType (PtrTo (Predeclared b)) = Some (PtrTo (Predeclared b)).
Proof. destruct b; intros H; try discriminate H; split; reflexivity. Qed.

(** C1. For each primitive kind (string, the signed and unsigned integers,
    float32, float64, bool), declared directly or behind a pointer: on a
    live instance, [Set] with a value of exactly the declared type succeeds
    and [Get] then returns that value. *)
Theorem Set_Get_roundtrip (b : reflect.Basic) (f : field) (obj : eface)
    (x : value) (m : gmap Z value) :
  primitiveKind (reflect.BasicKind b) = true →
  Type_ f = Predeclared b ∨ Type_ f = PtrTo (Predeclared b) →
  live m (getPtr f obj) →
  ∃ m', Set_ f obj (Some (Type_ f, x)) m = (Ok (), m')
        ∧ Get f obj m' = (Ok (Some (Type_ f, x)), m').
Proof.
  intros Hprim Hty Hlive.
  assert (accessType (Type_ f) = Some (Type_ f)) as Hacc.
  { destruct (accessType_declared b Hprim). destruct Hty as [-> | ->]; assumption. }
  exists (<[getPtr f obj := x]> m). split.
  - rewrite (Set_fast f obj _ _ Hacc). by apply setPtrValue_ok.
  - rewrite (Get_fast f obj _ Hacc).
    apply getPtrValue_live; [apply Hlive | apply lookup_insert_eq].
Qed.

Lemma Set_Get_roundtrip_witness :
  ∃ m', Set_ (newField "N" (PtrTo Tint8) [] 8) (self Point)
             (Some (PtrTo Tint8, VPtr 8192)) heap0 = (Ok (), m')
        ∧ Get (newField "N" (PtrTo Tint8) [] 8) (self Point) m'
          = (Ok (Some (PtrTo Tint8, VPtr 8192)), m').
Proof.
  apply (Set_Get_roundtrip Tint8 (newField "N" (PtrTo Tint8) [] 8)
           (self Point) (VPtr 8192) heap0).
  - reflexivity.
  - right. reflexivity.
  - split; [vm_compute; discriminate | vm_compute; eauto].
Defined.

(** * Get: which kinds are read *)

Section Reads.
Context (f : field) (obj : eface) (m : gmap Z value).

Lemma getPtrValue_result T ptr :
  getPtrValue T ptr m = (Panic InvalidMemory, m)
  ∨ ∃ x, getPtrValue T ptr m = (Ok (Some (T, x)), m).
Proof.
  unfold getPtrValue, mbind, exec_bind.
  destruct (load_result m ptr) as [-> | [x ->]]; [by left | right; by exists x].
Qed.

(** The chain [reflect.NewAt(T, ptr).Elem().Interface()]. *)
Lemma NewAt_Elem_Interface T ptr :
  (v ← Value.Elem (Value.NewAt T ptr); Value.Interface v) m
  = if decide (ptr = 0) then (Panic InterfaceOnZeroValue, m)
    else getPtrValue T ptr m.
Proof.
  unfold Value.NewAt, Value.Elem, mbind, exec_bind. cbn.
  destruct (decide (ptr = 0)); reflexivity.
Qed.

(** [Get] only reads. *)
Lemma Get_pure : snd (Get f obj m) = m.
Proof.
  destruct (primitiveKind (derefKind (Type_ f))) eqn:Hp.
  - apply accessType_primitive in Hp as [T HT]. rewrite (Get_fast _ _ _ HT).
    destruct (getPtrValue_result T (getPtr f obj)) as [-> | [x ->]]; reflexivity.
  - destruct (compositeKind (derefKind (Type_ f))) eqn:Hc.
    + rewrite (Get_composite _ _ Hc), NewAt_Elem_Interface.
      destruct (decide _); [reflexivity|].
      destruct (getPtrValue_result (Type_ f) (getPtr f obj)) as [-> | [x ->]];
        reflexivity.
    + by rewrite (Get_default _ _ Hp Hc).
Qed.
End Reads.

(** On a live instance [Get] returns what the field's location holds, for
    every kind it reads. *)
Lemma Get_live (f : field) (obj : eface) (m : gmap Z value) :
  supportedKind (derefKind (Type_ f)) = true →
  live m (getPtr f obj) →
  ∃ T x, m !! getPtr f obj = Some x ∧ Get f obj m = (Ok (Some (T, x)), m).
Proof.
  unfold supportedKind. intros Hs [Hnz [x Hx]].
  destruct (primitiveKind (derefKind (Type_ f))) eqn:Hp.
  - apply accessType_primitive in Hp as [T HT]. exists T, x. split; [done|].
    rewrite (Get_fast _ _ _ HT). by apply getPtrValue_live.
  - cbn in Hs. exists (Type_ f), x. split; [done|].
    rewrite (Get_composite _ _ Hs), NewAt_Elem_Interface.
    rewrite decide_False by assumption. by apply getPtrValue_live.
Qed.

(** C3. [Get] stops in its default branch, with the panic "unhandled default
    case", exactly when the kind of the field, dereferenced when the declared
    type is a pointer, is outside string, the signed and unsigned integers,
    float32, float64, bool, struct, slice and array. *)
Theorem Get_UnsupportedKind (f : field) (obj : eface) (m : gmap Z value) :
  fst (Get f obj m) = Panic UnhandledDefaultCase
  ↔ supportedKind (derefKind (Type_ f)) = false.
Proof.
  unfold supportedKind.
  destruct (primitiveKind (derefKind (Type_ f))) eqn:Hp.
  - apply accessType_primitive in Hp as [T HT]. rewrite (Get_fast _ _ _ HT).
    destruct (getPtrValue_result m T (getPtr f obj)) as [-> | [x ->]];
      split; discriminate.
  - destruct (compositeKind (derefKind (Type_ f))) eqn:Hc; cbn.
    + rewrite (Get_composite _ _ Hc), NewAt_Elem_Interface.
      destruct (decide _); [split; discriminate|].
      destruct (getPtrValue_result m (Type_ f) (getPtr f obj)) as [-> | [x ->]];
        split; discriminate.
    + by rewrite (Get_default _ _ Hp Hc).
Qed.

(** The integer kinds read are those of [int], [int8] to [int64], [uint]
    and [uint8] to [uint64]. A [uintptr], a complex number, a map or a
    pointer to a pointer ends in the default branch. *)
Example Get_default_kinds :
  fst (Get (newField "U" Tuintptr [] 8) (self Point) heap0)
  = Panic UnhandledDefaultCase
  ∧ fst (Get (newField "Z" reflect.Tcomplex128 [] 8) (self Point) heap0)
    = Panic UnhandledDefaultCase
  ∧ fst (Get (newField "Q" (PtrTo (PtrTo Tint)) [] 8) (self Point) heap0)
    = Panic UnhandledDefaultCase.
Proof. repeat split; reflexivity. Qed.

(** * Set: the typed fast path *)

(** C10, amended. For every field whose kind, dereferenced for a pointer
    type, is in the closed primitive set, [Set] fails and writes nothing
    whenever the dynamic type of the value is not exactly the type the fast
    path asserts: the predeclared type of that kind, behind an unnamed
    pointer for a pointer field. *)
Theorem Set_fast_path_strict (f : field) (obj : eface) (val : any)
    (m : gmap Z value) :
  primitiveKind (derefKind (Type_ f)) = true →
  dynType val ≠ accessType (Type_ f) →
  Set_ f obj val m = (Panic InterfaceConversion, m).
Proof.
  intros Hp Hne. apply accessType_primitive in Hp as [T HT].
  rewrite (Set_fast _ _ _ _ HT). apply setPtrValue_mismatch. by rewrite <- HT.
Qed.

Lemma Set_fast_path_strict_witness :
  Set_ (newField "T" Celsius [] 8) (self Point) (Some (Celsius, f37)) heap1
  = (Panic InterfaceConversion, heap1).
Proof.
  apply (Set_fast_path_strict (newField "T" Celsius [] 8) (self Point)
           (Some (Celsius, f37)) heap1).
  - reflexivity.
  - vm_compute. discriminate.
Defined.

(** C10 as stated fails: a field declared [Celsius] has kind float64, and
    [Set] writes a value whose dynamic type is [float64], not [Celsius]. *)
Lemma Set_fast_path_declared_type_counterexample :
  primitiveKind (derefKind (Type_ (newField "T" Celsius [] 8))) = true
  ∧ dynType (Some (Predeclared Tfloat64, f37))
    ≠ Some (Type_ (newField "T" Celsius [] 8))
  ∧ Set_ (newField "T" Celsius [] 8) (self Point)
         (Some (Predeclared Tfloat64, f37)) heap1
    = (Ok (), <[4104 := f37]> heap1).
Proof.
  split; [reflexivity|]. split; [vm_compute; discriminate|].
  rewrite (Set_fast _ _ Tfloat64) by reflexivity.
  apply (setPtrValue_ok (newField "T" Celsius [] 8) (self Point)).
  split; [vm_compute; discriminate | vm_compute; eauto].
Qed.

(** * Set: the generic fallback *)

Section Fallback.
Context (f : field) (obj : eface) (m : gmap Z value).
Hypothesis generic : primitiveKind (derefKind (Type_ f)) = false.
Hypothesis instance_live : live m (getPtr f obj).

(** What the fallback does on a live instance, case by case. *)
Lemma Set_fallback_eq val :
  Set_ f obj val m
  = match val with
    | None => (Panic SetOnZeroValue, m)
    | Some (V, x) =>
        if assignable (Type_ f) V
        then (Ok (), <[getPtr f obj := assigned (Type_ f) V x]> m)
        else (Panic NotAssignable, m)
    end.
Proof.
  rewrite (Set_default _ _ _ generic).
  unfold Value.NewAt, Value.Elem, mbind, exec_bind. cbn.
  rewrite decide_False by apply instance_live. cbn.
  destruct val as [[V x]|]; cbn; [|reflexivity].
  unfold Value.assignTo, assignable, assigned.
  destruct (reflect.directlyAssignable (Type_ f) V); cbn;
    [by apply store_live|].
  destruct (reflect.implements (Type_ f) V); cbn;
    [by apply store_live | reflexivity].
Qed.
End Fallback.

Lemma assignable_refl (T : rtype) : assignable T T = true.
Proof.
  unfold assignable, reflect.directlyAssignable.
  by rewrite decide_True by reflexivity.
Qed.

Lemma assigned_refl (T : rtype) (x : value) : assigned T T x = x.
Proof.
  unfold assigned, reflect.directlyAssignable.
  by rewrite decide_True by reflexivity.
Qed.

(** C2, amended. For every field that falls through to the generic fallback
    of [Set], on a live instance: [Set] succeeds exactly when the value is
    not nil and its dynamic type is assignable to the declared type as
    [reflect] decides it (the same type; types of one kind, not both named,
    with identical underlying types; a bidirectional channel for a channel
    type of the same element type, not both named; or a type that
    implements the declared interface type). A value of exactly the
    declared type is therefore always taken, and the field's location then
    holds it. When [Set] fails it is with one of the two panics of
    [reflect.Value.Set], the memory left as it was. *)
Theorem Set_fallback_assignable (f : field) (obj : eface) (val : any)
    (m : gmap Z value) :
  primitiveKind (derefKind (Type_ f)) = false →
  live m (getPtr f obj) →
  (∀ x, val = Some (Type_ f, x) →
        fst (Set_ f obj val m) = Ok ()
        ∧ snd (Set_ f obj val m) !! getPtr f obj = Some x)
  ∧ (fst (Set_ f obj val m) = Ok ()
     ↔ ∃ V, dynType val = Some V ∧ assignable (Type_ f) V = true)
  ∧ (∀ p m', Set_ f obj val m = (Panic p, m') →
             m' = m ∧ (p = NotAssignable ∨ p = SetOnZeroValue)).
Proof.
  intros Hgen Hlive. rewrite (Set_fallback_eq f obj m Hgen Hlive val).
  split; [|split; [split|]].
  - intros x ->. rewrite assignable_refl, assigned_refl. cbn.
    split; [reflexivity | apply lookup_insert_eq].
  - destruct val as [[V x]|]; cbn; [|discriminate].
    destruct (assignable (Type_ f) V) eqn:Ha; [|discriminate].
    intros _. by exists V.
  - intros [V [HV Ha]]. destruct val as [[V' x]|]; [|discriminate HV].
    cbn in HV. injection HV as ->. by rewrite Ha.
  - intros p m'.
    destruct val as [[V x]|]; [destruct (assignable (Type_ f) V)|];
      intros [= <- <-]; auto.
Qed.

Lemma Set_fallback_assignable_witness :
  (∀ x, Some (IDs, VSlice 8192 1 1) = Some (Type_ (newField "S" IDs [] 8), x) →
        fst (Set_ (newField "S" IDs [] 8) (self Point)
                  (Some (IDs, VSlice 8192 1 1)) heap2) = Ok ()
        ∧ snd (Set_ (newField "S" IDs [] 8) (self Point)
                    (Some (IDs, VSlice 8192 1 1)) heap2)
            !! getPtr (newField "S" IDs [] 8) (self Point) = Some x)
  ∧ (fst (Set_ (newField "S" IDs [] 8) (self Point)
               (Some (IDs, VSlice 8192 1 1)) heap2) = Ok ()
     ↔ ∃ V, dynType (Some (IDs, VSlice 8192 1 1)) = Some V
            ∧ assignable (Type_ (newField "S" IDs [] 8)) V = true)
  ∧ (∀ p m', Set_ (newField "S" IDs [] 8) (self Point)
                  (Some (IDs, VSlice 8192 1 1)) heap2 = (Panic p, m') →
             m' = heap2 ∧ (p = NotAssignable ∨ p = SetOnZeroValue)).
Proof.
  apply (Set_fallback_assignable (newField "S" IDs [] 8) (self Point)
           (Some (IDs, VSlice 8192 1 1)) heap2).
  - reflexivity.
  - split; [vm_compute; discriminate | vm_compute; eauto].
Defined.

(** C2 as stated fails: the field is declared [IDs], the value is a
    [[]int]; the types differ and [Set] stores the value. *)
Lemma Set_fallback_exact_type_counterexample :
  primitiveKind (derefKind (Type_ (newField "S" IDs [] 8))) = false
  ∧ dynType (Some (SliceOf Tint, VSlice 8192 1 1))
    ≠ Some (Type_ (newField "S" IDs [] 8))
  ∧ Set_ (newField "S" IDs [] 8) (self Point)
         (Some (SliceOf Tint, VSlice 8192 1 1)) heap2
    = (Ok (), <[4104 := VSlice 8192 1 1]> heap2).
Proof.
  split; [reflexivity|]. split; [vm_compute; discriminate|].
  rewrite (Set_fallback_eq (newField "S" IDs [] 8) (self Point) heap2).
  - reflexivity.
  - reflexivity.
  - split; [vm_compute; discriminate | vm_compute; eauto].
Qed.

(** The same for a field of interface type: any value is boxed into it. *)
Example Set_fallback_interface :
  Set_ (newField "I" (InterfaceOf []) [] 8) (self Point)
       (Some (Predeclared Tstring, VString "a")) heap2
  = (Ok (), <[4104 := VIface (Some (Predeclared Tstring, VString "a"))]> heap2).
Proof.
  rewrite (Set_fallback_eq (newField "I" (InterfaceOf []) [] 8) (self Point) heap2).
  - reflexivity.
  - reflexivity.
  - split; [vm_compute; discriminate | vm_compute; eauto].
Qed.

(** A pointer to [Buf] has both methods, whichever receiver declares
    them, and is boxed into a field that asks for both; a [Buf] itself
    lacks the one on the pointer receiver and is refused. *)
Example Set_fallback_pointer_receiver :
  Set_ (newField "I" ResetStringer [] 8) (self Point)
       (Some (PtrTo Buf, VPtr 8192)) heap2
  = (Ok (), <[4104 := VIface (Some (PtrTo Buf, VPtr 8192))]> heap2)
  ∧ Set_ (newField "I" ResetStringer [] 8) (self Point)
         (Some (Buf, VStruct [VInt 0])) heap2
    = (Panic NotAssignable, heap2).
Proof.
  split;
    rewrite (Set_fallback_eq (newField "I" ResetStringer [] 8) (self Point) heap2);
    try reflexivity; split; (vm_compute; discriminate) || (vm_compute; eauto).
Qed.

(** A bidirectional channel goes into a field declared as a receive-only
    channel of the same element type; not the other way round. *)
Example assignable_channels :
  assignable (ChanOf reflect.RecvDir Tint) (ChanOf reflect.BothDir Tint) = true
  ∧ assignable (ChanOf reflect.BothDir Tint) (ChanOf reflect.RecvDir Tint) = false.
Proof. split; reflexivity. Qed.

(** * Get on a pointer to a composite *)

Lemma Get_composite_live (f : field) (obj : eface) (m : gmap Z value)
    (x : value) :
  compositeKind (derefKind (Type_ f)) = true →
  getPtr f obj ≠ 0 →
  m !! getPtr f obj = Some x →
  Get f obj m = (Ok (Some (Type_ f, x)), m).
Proof.
  intros Hc Hnz Hx.
  rewrite (Get_composite _ _ Hc), NewAt_Elem_Interface.
  rewrite decide_False by assumption. by apply getPtrValue_live.
Qed.

(** C7, amended. For every field whose declared type is a pointer to a
    struct, slice or array, [Get] on a live instance reads the field's
    location at the declared pointer type and returns what is stored there,
    the pointer itself, boxed under the declared type. Memory is left as it
    was, and what the pointer points to is not read. *)
Theorem Get_pointer_to_composite (f : field) (obj : eface) (m : gmap Z value)
    (x : value) :
  Type_Kind (Type_ f) = reflect.Ptr →
  compositeKind (derefKind (Type_ f)) = true →
  getPtr f obj ≠ 0 →
  m !! getPtr f obj = Some x →
  Get f obj m = (Ok (Some (Type_ f, x)), m)
  ∧ ∀ m', m' !! getPtr f obj = Some x → fst (Get f obj m') = fst (Get f obj m).
Proof.
  intros _ Hc Hnz Hx. split.
  - by apply Get_composite_live.
  - intros m' Hx'.
    by rewrite (Get_composite_live f obj m x), (Get_composite_live f obj m' x).
Qed.

Lemma Get_pointer_to_composite_witness :
  Get (newField "P" (PtrTo Point) [] 8) (self Point) heap0
  = (Ok (Some (PtrTo Point, VPtr 8192)), heap0)
  ∧ ∀ m', m' !! getPtr (newField "P" (PtrTo Point) [] 8) (self Point)
          = Some (VPtr 8192) →
          fst (Get (newField "P" (PtrTo Point) [] 8) (self Point) m')
          = fst (Get (newField "P" (PtrTo Point) [] 8) (self Point) heap0).
Proof.
  apply (Get_pointer_to_composite (newField "P" (PtrTo Point) [] 8)
           (self Point) heap0 (VPtr 8192)).
  - reflexivity.
  - reflexivity.
  - vm_compute. discriminate.
  - reflexivity.
Defined.

(** C7 as stated fails: on a field declared [*Point] whose pointer leads to
    the point (3, 4), [Get] returns the pointer under the type [*Point]; it
    does not return the point under the type [Point], which is what
    following the pointer and copying the composite out gives. *)
Lemma Get_pointer_to_composite_counterexample :
  Type_Kind (Type_ (newField "P" (PtrTo Point) [] 8)) = reflect.Ptr
  ∧ compositeKind (derefKind (Type_ (newField "P" (PtrTo Point) [] 8))) = true
  ∧ derefCopy (newField "P" (PtrTo Point) [] 8) (self Point) heap0
    = (Ok (Some (Point, VStruct [VInt 3; VInt 4])), heap0)
  ∧ Get (newField "P" (PtrTo Point) [] 8) (self Point) heap0
    = (Ok (Some (PtrTo Point, VPtr 8192)), heap0)
  ∧ Get (newField "P" (PtrTo Point) [] 8) (self Point) heap0
    ≠ derefCopy (newField "P" (PtrTo Point) [] 8) (self Point) heap0.
Proof.
  assert (Get (newField "P" (PtrTo Point) [] 8) (self Point) heap0
          = (Ok (Some (PtrTo Point, VPtr 8192)), heap0)) as HG.
  { apply Get_composite_live; try reflexivity. vm_compute. discriminate. }
  assert (derefCopy (newField "P" (PtrTo Point) [] 8) (self Point) heap0
          = (Ok (Some (Point, VStruct [VInt 3; VInt 4])), heap0)) as HD
    by reflexivity.
  repeat split; try assumption. rewrite HG, HD. discriminate.
Qed.

(** * GetPtr *)

(** C8. For every field, whatever its kind, [GetPtr] succeeds, reads and
    writes nothing, and returns a pointer of type pointer-to-declared-type to
    the address [getPtr] computes, the same address [Get] and [Set] use. On
    a live instance a write through that pointer lands in the field's
    location, and [Get] returns the value written whenever the kind is one
    [Get] reads. *)
Theorem GetPtr_reference (f : field) (obj : eface) (m : gmap Z value) :
  GetPtr f obj m = (Ok (Some (PtrTo (Type_ f), VPtr (getPtr f obj))), m)
  ∧ getPtr f obj = unsafe.Add (dataWord obj) (Offset f)
  ∧ ∀ x, live m (getPtr f obj) →
      ∃ ref m',
        GetPtr f obj m = (Ok ref, m)
        ∧ writeThrough ref x m = (Ok (), m')
        ∧ m' !! getPtr f obj = Some x
        ∧ (supportedKind (derefKind (Type_ f)) = true →
           ∃ T, Get f obj m' = (Ok (Some (T, x)), m')).
Proof.
  split; [reflexivity|]. split; [reflexivity|].
  intros x Hlive.
  exists (Some (PtrTo (Type_ f), VPtr (getPtr f obj))), (<[getPtr f obj := x]> m).
  split; [reflexivity|]. split; [by apply store_live|].
  split; [apply lookup_insert_eq|].
  unfold supportedKind. intros Hs.
  destruct (primitiveKind (derefKind (Type_ f))) eqn:Hp.
  - apply accessType_primitive in Hp as [T HT]. exists T.
    rewrite (Get_fast _ _ _ HT).
    apply getPtrValue_live; [apply Hlive | apply lookup_insert_eq].
  - cbn in Hs. exists (Type_ f).
    rewrite (Get_composite _ _ Hs), NewAt_Elem_Interface.
    rewrite decide_False by apply Hlive.
    apply getPtrValue_live; [apply Hlive | apply lookup_insert_eq].
Qed.

Lemma GetPtr_reference_witness :
  ∃ ref m',
    GetPtr (newField "P" (PtrTo Point) [] 8) (self Point) heap0 = (Ok ref, heap0)
    ∧ writeThrough ref (VPtr 0) heap0 = (Ok (), m')
    ∧ m' !! getPtr (newField "P" (PtrTo Point) [] 8) (self Point) = Some (VPtr 0)
    ∧ ∃ T, Get (newField "P" (PtrTo Point) [] 8) (self Point) m'
           = (Ok (Some (T, VPtr 0)), m').
Proof.
  destruct (GetPtr_reference (newField "P" (PtrTo Point) [] 8)
              (self Point) heap0) as (_ & _ & Hwrite).
  destruct (Hwrite (VPtr 0)) as (ref & m' & HP & HW & HL & HG).
  - split; [vm_compute; discriminate | vm_compute; eauto].
  - exists ref, m'. repeat split; try assumption. apply HG. reflexivity.
Defined.

(** A map field is outside what [Get] reads, and [GetPtr] still hands out
    the pointer to it. *)
Example GetPtr_map_field :
  GetPtr (newField "M" (MapOf Tstring Tint) [] 8) (self Point) heap0
  = (Ok (Some (PtrTo (MapOf Tstring Tint), VPtr 4104)), heap0)
  ∧ fst (Get (newField "M" (MapOf Tstring Tint) [] 8) (self Point) heap0)
    = Panic UnhandledDefaultCase.
Proof. split; reflexivity. Qed.

(** * Composite fields: Set then Get

    A value of exactly the declared type, stored through the generic
    fallback, is what [Get] returns afterwards, for structs, slices and
    arrays, declared directly or behind a pointer. *)
Lemma Set_Get_composite (f : field) (obj : eface) (x : value) (m : gmap Z value) :
  compositeKind (derefKind (Type_ f)) = true →
  live m (getPtr f obj) →
  ∃ m', Set_ f obj (Some (Type_ f, x)) m = (Ok (), m')
        ∧ Get f obj m' = (Ok (Some (Type_ f, x)), m').
Proof.
  intros Hc Hlive. exists (<[getPtr f obj := x]> m).
  assert (primitiveKind (derefKind (Type_ f)) = false) as Hp
    by (destruct (derefKind (Type_ f)); done).
  split.
  - rewrite (Set_fallback_eq f obj m Hp Hlive).
    by rewrite assignable_refl, assigned_refl.
  - apply Get_composite_live; [done | apply Hlive | apply lookup_insert_eq].
Qed.

(** * GetTagPath *)

(** The struct path the builder assigns along the chain. *)
Example GetStructPath_chain3 : GetStructPath (chain3 2) = "A.B.C".
Proof. reflexivity. Qed.

Lemma Split_firstSegment (val : string) :
  ∃ rest, strings.Split val ","%char = firstSegment val :: rest.
Proof.
  induction val as [|c val [rest IH]]; cbn.
  - by exists [].
  - destruct (Ascii.eqb c ","%char); [by eexists|].
    rewrite IH. by eexists.
Qed.

Section TagPath.
Context (deref : nat → field) (tag : string) (ignoreParentTagMissing : bool).

(** One call of [GetTagPath], in terms of the field's own segment. *)
Lemma GetTagPath_step fuel f :
  GetTagPath (S fuel) deref f tag ignoreParentTagMissing
  = if decide (tagSegment f tag = "") then Some ""
    else match parent f with
         | None => Some (tagSegment f tag)
         | Some p =>
             parentTag ← GetTagPath fuel deref (deref p) tag ignoreParentTagMissing;
             if bool_decide (parentTag = "") && negb ignoreParentTagMissing
             then Some ""
             else if decide (parentTag = "") then Some (tagSegment f tag)
             else Some (parentTag +:+ "." +:+ tagSegment f tag)
         end.
Proof.
  cbn [GetTagPath]. unfold tagSegment.
  destruct (Lookup (Tag f) tag) as [val|]; [|reflexivity].
  destruct (Split_firstSegment val) as [rest ->].
  destruct (firstSegment val) as [|c s] eqn:Hseg; reflexivity.
Qed.

(** More fuel does not change a result. *)
Lemma GetTagPath_more_fuel fuel f path :
  GetTagPath fuel deref f tag ignoreParentTagMissing = Some path →
  GetTagPath (S fuel) deref f tag ignoreParentTagMissing = Some path.
Proof.
  revert f path. induction fuel as [|fuel IH]; intros f path; [discriminate|].
  rewrite (GetTagPath_step (S fuel)), (GetTagPath_step fuel).
  destruct (decide _); [done|]. destruct (parent f) as [p|]; [|done].
  destruct (GetTagPath fuel deref (deref p) tag ignoreParentTagMissing)
    as [parentTag|] eqn:Hp; [|discriminate].
  by rewrite (IH _ _ Hp).
Qed.

(** A chain of [n] ancestors is resolved in [n + 1] nested calls. *)
Lemma GetTagPath_depth f n :
  ancestors deref f n →
  is_Some (GetTagPath (S n) deref f tag ignoreParentTagMissing).
Proof.
  induction 1 as [f Hroot | f p n Hpar _ [parentTag IH]];
    rewrite GetTagPath_step; destruct (decide _); try done.
  - by rewrite Hroot.
  - rewrite Hpar, IH. cbn.
    destruct (bool_decide _ && _); [done|]. by destruct (decide _).
Qed.
End TagPath.

(** C4. When the tag key is absent from the field's own tag, or the first
    comma-delimited segment of its value is empty, [GetTagPath] returns the
    empty string at once: for both values of the flag and whatever the
    parent chain is, cyclic ones included. *)
Theorem GetTagPath_own_tag_missing (fuel : nat) (deref : nat → field)
    (f : field) (tag : string) (ignoreParentTagMissing : bool) :
  Lookup (Tag f) tag = None
  ∨ (∃ val, Lookup (Tag f) tag = Some val ∧ firstSegment val = "") →
  GetTagPath (S fuel) deref f tag ignoreParentTagMissing = Some "".
Proof.
  intros H. rewrite GetTagPath_step.
  assert (tagSegment f tag = "") as ->; [|reflexivity].
  unfold tagSegment. destruct H as [-> | [val [-> Hseg]]]; done.
Qed.

Lemma GetTagPath_own_tag_missing_witness :
  GetTagPath 1 ownParent (under 0 "A" (newField "C" Tstring [("json", ",omitempty")] 0))
             "json" false = Some ""
  ∧ GetTagPath 1 chain3 (chain3 2) "xml" true = Some "".
Proof.
  split.
  - apply (GetTagPath_own_tag_missing 0 ownParent
             (under 0 "A" (newField "C" Tstring [("json", ",omitempty")] 0))
             "json" false).
    right. exists ",omitempty". split; reflexivity.
  - apply (GetTagPath_own_tag_missing 0 chain3 (chain3 2) "xml" true).
    left. reflexivity.
Defined.

(** C5. When the field's own segment is not empty and the path resolved for
    its parent is empty, [GetTagPath] returns the empty string if
    [ignoreParentTagMissing] is false and the own segment alone if it is
    true. *)
Theorem GetTagPath_parent_missing (fuel : nat) (deref : nat → field)
    (f : field) (p : nat) (tag : string) (ignoreParentTagMissing : bool) :
  tagSegment f tag ≠ "" →
  parent f = Some p →
  GetTagPath fuel deref (deref p) tag ignoreParentTagMissing = Some "" →
  GetTagPath (S fuel) deref f tag ignoreParentTagMissing
  = Some (if ignoreParentTagMissing then tagSegment f tag else "").
Proof.
  intros Hseg Hpar Hparent. rewrite GetTagPath_step, Hpar, Hparent.
  rewrite decide_False by assumption. by destruct ignoreParentTagMissing.
Qed.

Lemma GetTagPath_parent_missing_witness :
  GetTagPath 2 untaggedParent (untaggedParent 1) "json" false = Some ""
  ∧ GetTagPath 2 untaggedParent (untaggedParent 1) "json" true = Some "x".
Proof.
  split.
  - apply (GetTagPath_parent_missing 1 untaggedParent (untaggedParent 1) 0
             "json" false); [vm_compute; discriminate | reflexivity | reflexivity].
  - apply (GetTagPath_parent_missing 1 untaggedParent (untaggedParent 1) 0
             "json" true); [vm_compute; discriminate | reflexivity | reflexivity].
Defined.

(** C6. When the field's own segment is not empty and the path resolved for
    its parent is not empty, the result is the parent path, a dot, and the
    own segment. So a leaf with segment [x] under a parent with segment [p]
    under a root with segment [g] resolves to [g.p.x], for both values of
    the flag. *)
Theorem GetTagPath_joins_parent (deref : nat → field) (tag : string)
    (ignoreParentTagMissing : bool) :
  (∀ fuel f p parentTag,
     tagSegment f tag ≠ "" →
     parent f = Some p →
     GetTagPath fuel deref (deref p) tag ignoreParentTagMissing = Some parentTag →
     parentTag ≠ "" →
     GetTagPath (S fuel) deref f tag ignoreParentTagMissing
     = Some (parentTag +:+ "." +:+ tagSegment f tag))
  ∧ (∀ leaf p g,
       tagSegment leaf tag = "x" → parent leaf = Some p →
       tagSegment (deref p) tag = "p" → parent (deref p) = Some g →
       tagSegment (deref g) tag = "g" → parent (deref g) = None →
       GetTagPath 3 deref leaf tag ignoreParentTagMissing = Some "g.p.x").
Proof.
  split.
  - intros fuel f p parentTag Hseg Hpar Hparent Hne.
    rewrite GetTagPath_step, Hpar, Hparent. rewrite decide_False by assumption.
    cbn. rewrite bool_decide_eq_false_2 by assumption. cbn.
    by rewrite decide_False by assumption.
  - intros leaf p g Hx Hp Hpseg Hg Hgseg Hroot.
    rewrite (GetTagPath_step _ _ _ 2), Hx, Hp.
    rewrite (GetTagPath_step _ _ _ 1), Hpseg, Hg.
    rewrite (GetTagPath_step _ _ _ 0), Hgseg, Hroot. reflexivity.
Qed.

Lemma GetTagPath_joins_parent_witness :
  GetTagPath 3 chain3 (chain3 2) "json" false = Some "g.p.x"
  ∧ GetTagPath 3 chain3 (chain3 2) "json" true = Some "g.p.x"
  ∧ GetTagPath 3 chain3 (chain3 2) "json" true
    = Some ("g.p" +:+ "." +:+ tagSegment (chain3 2) "json").
Proof.
  split; [|split].
  - apply (proj2 (GetTagPath_joins_parent chain3 "json" false) (chain3 2) 1%nat 0%nat);
      reflexivity.
  - apply (proj2 (GetTagPath_joins_parent chain3 "json" true) (chain3 2) 1%nat 0%nat);
      reflexivity.
  - apply (proj1 (GetTagPath_joins_parent chain3 "json" true) 2%nat (chain3 2) 1%nat "g.p");
      [vm_compute; discriminate | reflexivity | reflexivity | vm_compute; discriminate].
Defined.

(** C9. [GetTagPath] terminates on every descriptor whose parent chain is
    finite and free of cycles: with [n] ancestors, [n + 1] nested calls give
    the result, and any larger bound gives the same one. *)
Theorem GetTagPath_terminates (deref : nat → field) (f : field) (n : nat)
    (tag : string) (ignoreParentTagMissing : bool) :
  ancestors deref f n →
  ∃ path, ∀ fuel, (n < fuel)%nat →
    GetTagPath fuel deref f tag ignoreParentTagMissing = Some path.
Proof.
  intros Hchain.
  destruct (GetTagPath_depth deref tag ignoreParentTagMissing f n Hchain)
    as [path Hpath].
  exists path. intros fuel Hlt.
  replace fuel with ((fuel - S n) + S n)%nat by lia.
  induction (fuel - S n)%nat as [|k IH]; [assumption|].
  by apply GetTagPath_more_fuel.
Qed.

Lemma GetTagPath_terminates_witness :
  ∃ path, ∀ fuel, (2 < fuel)%nat →
    GetTagPath fuel chain3 (chain3 2) "json" false = Some path.
Proof.
  apply (GetTagPath_terminates chain3 (chain3 2) 2 "json" false).
  apply (ancestors_step chain3 (chain3 2) 1 1); [reflexivity|].
  apply (ancestors_step chain3 (chain3 1) 0 0); [reflexivity|].
  apply ancestors_root. reflexivity.
Defined.

(** Without the precondition there is no bound: on a descriptor that is
    its own parent the recursion never comes back. *)
Lemma GetTagPath_cycle (fuel : nat) (ignoreParentTagMissing : bool) :
  GetTagPath fuel ownParent (ownParent 0) "json" ignoreParentTagMissing = None.
Proof.
  induction fuel as [|fuel IH]; [reflexivity|].
  rewrite GetTagPath_step. cbn. unfold ownParent in IH |- *. by rewrite IH.
Qed.

Lemma ownParent_no_chain (n : nat) : ¬ ancestors ownParent (ownParent 0) n.
Proof.
  induction n as [|n IH]; inversion 1; subst; try discriminate.
  match goal with H : parent _ = Some ?p |- _ => cbn in H; injection H as <- end.
  by apply IH.
Qed.

(** * Further properties: Get and Set as a whole *)

(** Every outcome of [Get], by the declared type and the field's address. *)
Lemma Get_eq (f : field) (obj : eface) (m : gmap Z value) :
  Get f obj m
  = match accessType (Type_ f) with
    | Some T => getPtrValue T (getPtr f obj) m
    | None =>
        if compositeKind (derefKind (Type_ f))
        then if decide (getPtr f obj = 0) then (Panic InterfaceOnZeroValue, m)
             else getPtrValue (Type_ f) (getPtr f obj) m
        else (Panic UnhandledDefaultCase, m)
    end.
Proof.
  destruct (accessType (Type_ f)) as [T|] eqn:HT.
  - by rewrite (Get_fast _ _ _ HT).
  - assert (primitiveKind (derefKind (Type_ f)) = false) as Hp.
    { destruct (primitiveKind _) eqn:Hp; [|done].
      apply accessType_primitive in Hp as [T HT']. congruence. }
    destruct (compositeKind (derefKind (Type_ f))) eqn:Hc.
    + by rewrite (Get_composite _ _ Hc), NewAt_Elem_Interface.
    + by rewrite (Get_default _ _ Hp Hc).
Qed.

(** Every outcome of [Set]. *)
Lemma Set_eq (f : field) (obj : eface) (val : any) (m : gmap Z value) :
  Set_ f obj val m
  = match accessType (Type_ f) with
    | Some T => setPtrValue T (getPtr f obj) val m
    | None =>
        if decide (getPtr f obj = 0) then (Panic SetOnZeroValue, m)
        else match val with
             | None => (Panic SetOnZeroValue, m)
             | Some (V, x) =>
                 if assignable (Type_ f) V
                 then store (getPtr f obj) (assigned (Type_ f) V x) m
                 else (Panic NotAssignable, m)
             end
    end.
Proof.
  destruct (accessType (Type_ f)) as [T|] eqn:HT.
  - by rewrite (Set_fast _ _ _ _ HT).
  - assert (primitiveKind (derefKind (Type_ f)) = false) as Hp.
    { destruct (primitiveKind _) eqn:Hp; [|done].
      apply accessType_primitive in Hp as [T HT']. congruence. }
    rewrite (Set_default _ _ _ Hp).
    unfold Value.NewAt, Value.Elem, mbind, exec_bind. cbn.
    destruct (decide (getPtr f obj = 0)); cbn; [by destruct val as [[]|]|].
    destruct val as [[V x]|]; cbn; [|reflexivity].
    unfold Value.assignTo, assignable, assigned.
    destruct (reflect.directlyAssignable (Type_ f) V); cbn; [reflexivity|].
    destruct (reflect.implements (Type_ f) V); reflexivity.
Qed.

Lemma accessType_None_primitive (t : rtype) :
  accessType t = None ↔ primitiveKind (derefKind t) = false.
Proof.
  unfold accessType, derefKind, primitiveKind.
  destruct (reflect.underlying t);
    match goal with |- context [kindBasic ?k] => destruct (kindBasic k) end;
    cbn; split; congruence.
Qed.

Lemma load_lookup (ptr : Z) (m : gmap Z value) (x : value) :
  load ptr m = (Ok x, m) ↔ ptr ≠ 0 ∧ m !! ptr = Some x.
Proof.
  unfold load. destruct (decide (ptr = 0)) as [->|Hnz].
  - split; [discriminate | intros [[] _]; reflexivity].
  - destruct (m !! ptr) as [y|]; split.
    + intros [= ->]. done.
    + intros [_ [= ->]]. done.
    + discriminate.
    + intros [_ [=]].
Qed.

Lemma store_outcome (ptr : Z) (x : value) (m : gmap Z value) :
  (live m ptr ∧ store ptr x m = (Ok (), <[ptr := x]> m))
  ∨ (¬ live m ptr ∧ store ptr x m = (Panic InvalidMemory, m)).
Proof.
  unfold store, live. destruct (decide (ptr = 0)) as [->|Hnz].
  - right. split; [intros [[] _]; reflexivity | reflexivity].
  - destruct (m !! ptr) as [y|] eqn:Hy.
    + left. split; [split; eauto | reflexivity].
    + right. split; [intros [_ [? [=]]] | reflexivity].
Qed.

Lemma getPtrValue_eq (T : rtype) (ptr : Z) (m : gmap Z value) :
  getPtrValue T ptr m
  = if decide (ptr = 0) then (Panic InvalidMemory, m)
    else match m !! ptr with
         | Some x => (Ok (Some (T, x)), m)
         | None => (Panic InvalidMemory, m)
         end.
Proof.
  unfold getPtrValue, mbind, exec_bind, load.
  destruct (decide (ptr = 0)); [reflexivity|]. by destruct (m !! ptr).
Qed.

Lemma supported_cases (t : rtype) :
  supportedKind (derefKind t) = true →
  (∃ T, accessType t = Some T)
  ∨ (accessType t = None ∧ compositeKind (derefKind t) = true).
Proof.
  unfold supportedKind. intros Hs.
  destruct (accessType t) as [T|] eqn:HT; [left; eauto | right].
  split; [reflexivity|]. apply accessType_None_primitive in HT.
  by rewrite HT in Hs.
Qed.

Lemma composite_not_primitive (k : reflect.Kind) :
  compositeKind k = true → primitiveKind k = false.
Proof. by destruct k. Qed.

(** X1. [Get] never writes: whatever the descriptor, the object and the
    outcome, the memory after the call is the memory before it. *)
Theorem Get_never_writes (f : field) (obj : eface) (m : gmap Z value) :
  snd (Get f obj m) = m.
Proof.
  rewrite Get_eq. destruct (accessType (Type_ f)).
  - rewrite getPtrValue_eq. destruct (decide (getPtr f obj = 0)); [done|]. by destruct (m !! getPtr f obj).
  - destruct (compositeKind _); [|done]. destruct (decide (getPtr f obj = 0)); [done|].
    rewrite getPtrValue_eq. destruct (decide (getPtr f obj = 0)); [done|]. by destruct (m !! getPtr f obj).
Qed.

(** X2. [Get] looks at the field's own location and at nothing else: two
    memories that agree there give the same outcome. In particular a
    pointer stored in the field is not followed. *)
Theorem Get_local (f : field) (obj : eface) (m1 m2 : gmap Z value) :
  m1 !! getPtr f obj = m2 !! getPtr f obj →
  fst (Get f obj m1) = fst (Get f obj m2).
Proof.
  intros Heq. rewrite !Get_eq.
  destruct (accessType (Type_ f)); [|destruct (compositeKind _); [|done]];
    rewrite !getPtrValue_eq, Heq;
    destruct (decide (getPtr f obj = 0)); try done;
    by destruct (m2 !! getPtr f obj).
Qed.

Lemma Get_local_witness :
  fst (Get (newField "P" (PtrTo Point) [] 8) (self Point) heap0)
  = fst (Get (newField "P" (PtrTo Point) [] 8) (self Point)
             (<[8192 := VStruct [VInt 0; VInt 0]]> heap0)).
Proof.
  apply (Get_local (newField "P" (PtrTo Point) [] 8) (self Point) heap0
           (<[8192 := VStruct [VInt 0; VInt 0]]> heap0)).
  vm_compute. reflexivity.
Defined.

(** X3. When [Get] returns: exactly when the kind is one of the seventeen
    it reads and the field's location is live; the value is then what the
    location holds, boxed under the type of the fast path for a primitive
    kind and under the declared type for a struct, slice or array. *)
Theorem Get_returns_iff (f : field) (obj : eface) (m : gmap Z value) (v : any) :
  fst (Get f obj m) = Ok v
  ↔ supportedKind (derefKind (Type_ f)) = true
    ∧ getPtr f obj ≠ 0
    ∧ ∃ x, m !! getPtr f obj = Some x ∧ v = Some (resultType (Type_ f), x).
Proof.
  rewrite Get_eq. unfold resultType, supportedKind. split.
  - destruct (accessType (Type_ f)) as [T|] eqn:HT.
    + assert (primitiveKind (derefKind (Type_ f)) = true) as ->
        by (apply accessType_primitive; eauto).
      rewrite getPtrValue_eq. destruct (decide (getPtr f obj = 0)); [discriminate|].
      destruct (m !! getPtr f obj) as [x|]; [|discriminate]. intros [= <-]. eauto.
    + destruct (compositeKind _); [|discriminate].
      destruct (decide (getPtr f obj = 0)); [discriminate|]. rewrite getPtrValue_eq.
      rewrite decide_False by assumption.
      destruct (m !! getPtr f obj) as [x|]; [|discriminate]. intros [= <-].
      rewrite orb_true_r. eauto.
  - intros (Hs & Hnz & x & Hx & ->).
    destruct (accessType (Type_ f)) as [T|] eqn:HT.
    + rewrite getPtrValue_eq, decide_False, Hx by assumption. reflexivity.
    + apply accessType_None_primitive in HT. rewrite HT in Hs. cbn in Hs.
      rewrite Hs, decide_False by assumption.
      rewrite getPtrValue_eq, decide_False, Hx by assumption. reflexivity.
Qed.

(** Where the fallback of [Set] stores, the assigned value is the value
    itself on every kind [Get] reads: boxing is for interface types. *)
Lemma assigned_composite (t V : rtype) (x : value) :
  compositeKind (derefKind t) = true → assignable t V = true →
  assigned t V x = x.
Proof.
  unfold assignable, assigned. intros Hc Ha.
  destruct (reflect.directlyAssignable t V); [reflexivity|]. cbn in Ha.
  unfold reflect.implements in Ha.
  destruct (decide (Type_Kind t = reflect.Interface)) as [Hk|]; [|discriminate].
  exfalso. revert Hc Hk. unfold derefKind, Type_Kind.
  destruct (reflect.underlying t) as [b| | | | | | | | |]; try discriminate.
  by destruct b.
Qed.

Lemma Set_ok_inv (f : field) (obj : eface) (val : any) (m m' : gmap Z value) :
  Set_ f obj val m = (Ok (), m') →
  live m (getPtr f obj)
  ∧ ∃ V x, val = Some (V, x) ∧ accepts (Type_ f) V = true
           ∧ m' = <[getPtr f obj := storedAs (Type_ f) V x]> m.
Proof.
  rewrite Set_eq. unfold accepts, storedAs, setPtrValue.
  destruct (accessType (Type_ f)) as [T|].
  - destruct val as [[V x]|]; [|discriminate].
    destruct (decide (V = T)) as [->|]; [|discriminate].
    destruct (store_outcome (getPtr f obj) x m) as [[Hl ->]|[_ ->]];
      [|discriminate].
    intros [= <-]. split; [done|]. exists T, x.
    rewrite bool_decide_eq_true_2 by reflexivity. repeat split.
  - destruct (decide (getPtr f obj = 0)); [discriminate|].
    destruct val as [[V x]|]; [|discriminate].
    destruct (assignable (Type_ f) V) eqn:Ha; [|discriminate].
    destruct (store_outcome (getPtr f obj) (assigned (Type_ f) V x) m)
      as [[Hl ->]|[_ ->]]; [|discriminate].
    intros [= <-]. split; [done|]. exists V, x. repeat split. exact Ha.
Qed.

Lemma Set_ok_intro (f : field) (obj : eface) (V : rtype) (x : value)
    (m : gmap Z value) :
  live m (getPtr f obj) → accepts (Type_ f) V = true →
  Set_ f obj (Some (V, x)) m
  = (Ok (), <[getPtr f obj := storedAs (Type_ f) V x]> m).
Proof.
  rewrite Set_eq. unfold accepts, storedAs, setPtrValue. intros Hl Hacc.
  destruct (accessType (Type_ f)) as [T|].
  - apply bool_decide_eq_true_1 in Hacc as ->.
    rewrite decide_True by reflexivity. by apply store_live.
  - rewrite decide_False by apply Hl. rewrite Hacc. by apply store_live.
Qed.

(** X4. When [Set] succeeds: exactly when the field's location is live and
    the value is not nil and of a type the field accepts, which is the one
    type of the fast path for a primitive kind and any assignable type on
    the fallback. The field's location then holds the value. *)
Theorem Set_succeeds_iff (f : field) (obj : eface) (val : any)
    (m : gmap Z value) :
  (fst (Set_ f obj val m) = Ok ()
   ↔ live m (getPtr f obj)
     ∧ ∃ V, dynType val = Some V ∧ accepts (Type_ f) V = true)
  ∧ (∀ V x, val = Some (V, x) → fst (Set_ f obj val m) = Ok () →
       snd (Set_ f obj val m) !! getPtr f obj = Some (storedAs (Type_ f) V x)).
Proof.
  split; [split|].
  - destruct (Set_ f obj val m) as [[[]|p] m'] eqn:HS; [|discriminate].
    intros _. apply Set_ok_inv in HS as (Hl & V & x & -> & Hacc & _).
    split; [done|]. by exists V.
  - intros (Hl & V & HV & Hacc). destruct val as [[V' x]|]; [|discriminate HV].
    cbn in HV. injection HV as ->. by rewrite (Set_ok_intro _ _ _ _ _ Hl Hacc).
  - intros V x -> Hok.
    destruct (Set_ f obj (Some (V, x)) m) as [[[]|p] m'] eqn:HS; [|discriminate].
    apply Set_ok_inv in HS as (_ & V' & x' & [= <- <-] & _ & ->).
    apply lookup_insert_eq.
Qed.

Lemma Set_succeeds_iff_witness :
  snd (Set_ (newField "T" Celsius [] 8) (self Point)
            (Some (Predeclared Tfloat64, f37)) heap1)
    !! getPtr (newField "T" Celsius [] 8) (self Point)
  = Some (storedAs (Type_ (newField "T" Celsius [] 8)) Tfloat64 f37).
Proof.
  apply (proj2 (Set_succeeds_iff (newField "T" Celsius [] 8) (self Point)
                  (Some (Predeclared Tfloat64, f37)) heap1));
    vm_compute; reflexivity.
Defined.

(** X5. [Set] is all or nothing: whenever it panics, on any field and for
    any reason (a failed assertion, a value that is not assignable, a nil
    value, an invalid address), the memory is the one it started from. *)
Theorem Set_panic_writes_nothing (f : field) (obj : eface) (val : any)
    (m : gmap Z value) (p : panic) :
  fst (Set_ f obj val m) = Panic p → snd (Set_ f obj val m) = m.
Proof.
  assert (∀ x, fst (store (getPtr f obj) x m) = Panic p
               → snd (store (getPtr f obj) x m) = m) as Hstore.
  { intros x. by destruct (store_outcome (getPtr f obj) x m) as [[_ ->]|[_ ->]]. }
  rewrite Set_eq. unfold setPtrValue.
  destruct (accessType (Type_ f)) as [T|].
  - destruct val as [[V x]|]; [|done]. destruct (decide (V = T)); [apply Hstore|done].
  - destruct (decide (getPtr f obj = 0)); [done|]. destruct val as [[V x]|]; [|done].
    destruct (assignable (Type_ f) V); [apply Hstore|done].
Qed.

(** X6. What [Set] stored, [Get] returns: after a successful [Set] of a
    value on a field of a kind that [Get] reads, [Get] succeeds and
    returns that value, boxed under the type [Get] reads the field at. *)
Theorem Set_then_Get (f : field) (obj : eface) (V : rtype) (x : value)
    (m m' : gmap Z value) :
  supportedKind (derefKind (Type_ f)) = true →
  Set_ f obj (Some (V, x)) m = (Ok (), m') →
  Get f obj m' = (Ok (Some (resultType (Type_ f), x)), m').
Proof.
  intros Hs HSet. rewrite Set_eq in HSet. rewrite Get_eq.
  unfold resultType, setPtrValue in *.
  destruct (supported_cases _ Hs) as [[T HT]|[HT Hc]]; rewrite HT in *; cbn.
  - destruct (decide (V = T)); [|discriminate].
    destruct (store_outcome (getPtr f obj) x m) as [[Hl Hst]|[_ Hst]];
      rewrite Hst in HSet; [|discriminate].
    injection HSet as <-. rewrite getPtrValue_eq.
    rewrite decide_False by apply Hl. by rewrite lookup_insert_eq.
  - rewrite Hc. destruct (decide (getPtr f obj = 0)) as [|Hnz]; [discriminate|].
    destruct (assignable (Type_ f) V) eqn:Ha; [|discriminate].
    rewrite (assigned_composite _ _ _ Hc Ha) in HSet.
    destruct (store_outcome (getPtr f obj) x m) as [[Hl Hst]|[_ Hst]];
      rewrite Hst in HSet; [|discriminate].
    injection HSet as <-. rewrite getPtrValue_eq.
    rewrite decide_False by assumption. by rewrite lookup_insert_eq.
Qed.

Lemma Set_panic_writes_nothing_witness :
  snd (Set_ (newField "T" Celsius [] 8) (self Point) (Some (Celsius, f37)) heap1)
  = heap1.
Proof.
  apply (Set_panic_writes_nothing (newField "T" Celsius [] 8) (self Point)
           (Some (Celsius, f37)) heap1 InterfaceConversion).
  vm_compute. reflexivity.
Defined.

Lemma Set_then_Get_witness :
  Get (newField "S" IDs [] 8) (self Point) (<[4104 := VSlice 8192 1 1]> heap2)
  = (Ok (Some (resultType (Type_ (newField "S" IDs [] 8)), VSlice 8192 1 1)),
     <[4104 := VSlice 8192 1 1]> heap2).
Proof.
  apply (Set_then_Get (newField "S" IDs [] 8) (self Point) (SliceOf Tint)
           (VSlice 8192 1 1) heap2 (<[4104 := VSlice 8192 1 1]> heap2)).
  - reflexivity.
  - vm_compute. reflexivity.
Defined.

(** X7. The panics of [Set]. On a primitive kind it can only be the failed
    type assertion or an invalid address; on every other kind only the two
    panics of [reflect.Value.Set] or an invalid address. [Set] has no
    "unhandled default case": every kind is written. *)
Theorem Set_panics (f : field) (obj : eface) (val : any) (m : gmap Z value)
    (p : panic) :
  fst (Set_ f obj val m) = Panic p →
  if primitiveKind (derefKind (Type_ f))
  then p = InterfaceConversion ∨ p = InvalidMemory
  else p = SetOnZeroValue ∨ p = NotAssignable ∨ p = InvalidMemory.
Proof.
  rewrite Set_eq. unfold setPtrValue.
  destruct (accessType (Type_ f)) as [T|] eqn:HT.
  - assert (primitiveKind (derefKind (Type_ f)) = true) as ->
      by (apply accessType_primitive; eauto).
    destruct val as [[V x]|]; [|intros [= <-]; by left].
    destruct (decide (V = T)); [|intros [= <-]; by left].
    destruct (store_outcome (getPtr f obj) x m) as [[_ ->]|[_ ->]];
      [discriminate | intros [= <-]; by right].
  - apply accessType_None_primitive in HT as ->.
    destruct (decide (getPtr f obj = 0)); [intros [= <-]; by left|].
    destruct val as [[V x]|]; [|intros [= <-]; by left].
    destruct (assignable (Type_ f) V); [|intros [= <-]; right; by left].
    destruct (store_outcome (getPtr f obj) (assigned (Type_ f) V x) m)
      as [[_ ->]|[_ ->]]; [discriminate | intros [= <-]; right; by right].
Qed.

Lemma Set_panics_witness :
  NotAssignable = SetOnZeroValue ∨ NotAssignable = NotAssignable
  ∨ NotAssignable = InvalidMemory.
Proof.
  apply (Set_panics (newField "S" IDs [] 8) (self Point)
           (Some (SliceOf Tint8, VSlice 8192 1 1)) heap2 NotAssignable).
  vm_compute. reflexivity.
Defined.



(** X9. A nil value is never stored. [Set] with the nil interface panics
    on every field, with the failed type assertion on a primitive kind and
    with the zero Value panic of [reflect] on every other, and writes
    nothing; a pointer field cannot be reset this way. *)
Theorem Set_nil_value (f : field) (obj : eface) (m : gmap Z value) :
  Set_ f obj None m
  = (Panic (if primitiveKind (derefKind (Type_ f))
            then InterfaceConversion else SetOnZeroValue), m).
Proof.
  rewrite Set_eq. destruct (accessType (Type_ f)) as [T|] eqn:HT.
  - assert (primitiveKind (derefKind (Type_ f)) = true) as ->
      by (apply accessType_primitive; eauto).
    reflexivity.
  - apply accessType_None_primitive in HT as ->.
    by destruct (decide (getPtr f obj = 0)).
Qed.

(** X10. The last [Set] wins: when a [Set] follows a successful [Set] on
    the same field and succeeds, the memory is the one that the second
    [Set] alone would have produced. *)
Theorem Set_overwrites (f : field) (obj : eface) (v1 v2 : any)
    (m m1 m2 : gmap Z value) :
  Set_ f obj v1 m = (Ok (), m1) →
  Set_ f obj v2 m1 = (Ok (), m2) →
  Set_ f obj v2 m = (Ok (), m2).
Proof.
  intros H1 H2.
  apply Set_ok_inv in H1 as (Hl & V1 & x1 & -> & _ & ->).
  apply Set_ok_inv in H2 as (_ & V2 & x2 & -> & Hacc & ->).
  rewrite insert_insert_eq. by apply Set_ok_intro.
Qed.

Lemma Set_overwrites_witness :
  Set_ (newField "N" Tint [] 8) (self Point) (Some (Predeclared Tint, VInt 2)) heap0
  = (Ok (), <[4104 := VInt 2]> heap0).
Proof.
  apply (Set_overwrites (newField "N" Tint [] 8) (self Point)
           (Some (Predeclared Tint, VInt 1)) (Some (Predeclared Tint, VInt 2))
           heap0 (<[4104 := VInt 1]> heap0) (<[4104 := VInt 2]> heap0));
    vm_compute; reflexivity.
Defined.

(** X11. Fields that lie apart do not disturb each other: when the byte
    extents of two fields, each from its address over the size of its
    declared type, are not empty and do not overlap, a [Set] through the
    one descriptor, whatever its outcome, leaves unchanged what [Get] gives
    through the other. *)
Theorem Set_other_field (f g : field) (obj obj' : eface) (val : any)
    (m : gmap Z value) :
  0 < reflect.Type_Size (Type_ f) →
  0 < reflect.Type_Size (Type_ g) →
  (getPtr f obj + reflect.Type_Size (Type_ f) ≤ getPtr g obj')%Z
  ∨ (getPtr g obj' + reflect.Type_Size (Type_ g) ≤ getPtr f obj)%Z →
  fst (Get g obj' (snd (Set_ f obj val m))) = fst (Get g obj' m).
Proof.
  intros Hf Hg Hapart.
  assert (getPtr g obj' ≠ getPtr f obj) as Hne by lia.
  assert (snd (Set_ f obj val m) !! getPtr g obj' = m !! getPtr g obj') as Hsame.
  { rewrite Set_eq. unfold setPtrValue.
    assert (∀ x, snd (store (getPtr f obj) x m) !! getPtr g obj'
                 = m !! getPtr g obj') as Hstore.
    { intros x. destruct (store_outcome (getPtr f obj) x m) as [[_ ->]|[_ ->]];
        cbn; [by rewrite lookup_insert_ne | reflexivity]. }
    destruct (accessType (Type_ f)) as [T|].
    - destruct val as [[V x]|]; [|done]. destruct (decide (V = T)); [apply Hstore|done].
    - destruct (decide (getPtr f obj = 0)); [done|]. destruct val as [[V x]|]; [|done].
      destruct (assignable (Type_ f) V); [apply Hstore|done]. }
  rewrite !Get_eq.
  destruct (accessType (Type_ g)); [|destruct (compositeKind _); [|done]];
    rewrite !getPtrValue_eq, Hsame;
    destruct (decide (getPtr g obj' = 0)); try done;
    by destruct (m !! getPtr g obj').
Qed.

Lemma Set_other_field_witness :
  fst (Get (newField "Q" Point [] 4096) (self Point)
           (snd (Set_ (newField "P" (PtrTo Point) [] 8) (self Point)
                      (Some (PtrTo Point, VPtr 0)) heap0)))
  = fst (Get (newField "Q" Point [] 4096) (self Point) heap0).
Proof.
  apply (Set_other_field (newField "P" (PtrTo Point) [] 8)
           (newField "Q" Point [] 4096) (self Point) (self Point)
           (Some (PtrTo Point, VPtr 0)) heap0).
  - reflexivity.
  - reflexivity.
  - left. vm_compute. discriminate.
Defined.

(** * Further properties: addresses *)

(** X12. The field address is a machine word, and inside one object
    distinct offsets give distinct addresses: the sum wraps around at 2^64,
    which cannot make two offsets below 2^64 meet. *)
Theorem getPtr_offsets_distinct (f g : field) (obj : eface) :
  0 ≤ getPtr f obj < 2 ^ 64
  ∧ (0 ≤ Offset f < 2 ^ 64 → 0 ≤ Offset g < 2 ^ 64 →
     Offset f ≠ Offset g → getPtr f obj ≠ getPtr g obj).
Proof.
  unfold getPtr, unsafe.Add, unsafe.wrap, unsafe.wordBits. split.
  - apply Z.mod_pos_bound. lia.
  - intros Hf Hg Hne Heq.
    pose proof (Z.div_mod (dataWord obj + Offset f) (2 ^ 64) ltac:(lia)) as H1.
    pose proof (Z.div_mod (dataWord obj + Offset g) (2 ^ 64) ltac:(lia)) as H2.
    rewrite Heq in H1.
    set (q1 := (dataWord obj + Offset f) `div` 2 ^ 64) in *.
    set (q2 := (dataWord obj + Offset g) `div` 2 ^ 64) in *.
    assert (Offset f - Offset g = 2 ^ 64 * (q1 - q2)) as Hk by lia.
    assert (q1 - q2 = 0) by nia. lia.
Qed.

Lemma getPtr_offsets_distinct_witness :
  getPtr (newField "A" Tint [] 0) (self Point)
  ≠ getPtr (newField "B" Tint [] 8) (self Point).
Proof.
  apply (proj2 (getPtr_offsets_distinct (newField "A" Tint [] 0)
                  (newField "B" Tint [] 8) (self Point)));
    cbn; lia.
Defined.

(** X13. Descriptors compose through [GetPtr]. The pointer that [GetPtr]
    hands out for a field [f], passed as the object to the descriptor of a
    field [g] of the nested record, addresses the object's data word moved
    by the sum of the two offsets; so [Get] and [Set] through [g] reach the
    nested field in place. *)
Theorem getPtr_nested (f g : field) (obj : eface) (m : gmap Z value) :
  ∃ ref inner,
    GetPtr f obj m = (Ok ref, m)
    ∧ header ref = Some inner
    ∧ typeWord inner = Some (PtrTo (Type_ f))
    ∧ getPtr g inner = unsafe.Add (dataWord obj) (Offset f + Offset g).
Proof.
  exists (Some (PtrTo (Type_ f), VPtr (getPtr f obj))),
         {| typeWord := Some (PtrTo (Type_ f)); dataWord := getPtr f obj |}.
  repeat split.
  unfold getPtr, unsafe.Add, unsafe.wrap. cbn [dataWord].
  rewrite Zplus_mod_idemp_l. f_equal. lia.
Qed.

(** * Further properties: the shape of a tag path *)

Lemma append_assoc (a b c : string) : (a +:+ b) +:+ c = a +:+ b +:+ c.
Proof.
  induction a as [|x a IH]; [reflexivity|].
  change (String x ((a +:+ b) +:+ c) = String x (a +:+ b +:+ c)). by f_equal.
Qed.

Lemma append_empty (a b : string) : a +:+ b = "" → a = "" ∧ b = "".
Proof.
  destruct a as [|x a]; [done|].
  change (String x (a +:+ b) = "" → String x a = "" ∧ b = ""). discriminate.
Qed.

Lemma concat_snoc (sep : string) (l : list string) (s : string) :
  l ≠ [] → String.concat sep (l ++ [s]) = String.concat sep l +:+ sep +:+ s.
Proof.
  induction l as [|x l IH]; [done|]. intros _.
  destruct l as [|y l]; [reflexivity|].
  change (String.concat sep ((x :: y :: l) ++ [s]))
    with (x +:+ sep +:+ String.concat sep ((y :: l) ++ [s])).
  rewrite IH by done.
  change (String.concat sep (x :: y :: l))
    with (x +:+ sep +:+ String.concat sep (y :: l)).
  by rewrite !append_assoc.
Qed.

Lemma concat_empty (sep : string) (l : list string) :
  Forall (λ s, s ≠ "") l → String.concat sep l = "" → l = [].
Proof.
  destruct l as [|x l]; [done|]. intros Hall Hc. exfalso.
  apply Forall_cons in Hall as [Hx _]. apply Hx.
  destruct l; [exact Hc | by apply append_empty in Hc as [? _]].
Qed.

Lemma allPresent_Forall (l : list string) :
  allPresent l = true ↔ Forall (λ s, s ≠ "") l.
Proof.
  unfold allPresent. induction l as [|x l IH]; cbn; [by split|].
  rewrite andb_true_iff, Forall_cons, IH, negb_true_iff, bool_decide_eq_false.
  reflexivity.
Qed.

Lemma leading_Forall (l : list string) : Forall (λ s, s ≠ "") (leading l).
Proof.
  induction l as [|x l IH]; cbn; [constructor|].
  destruct (decide (x = "")); by constructor.
Qed.

Section Shape.
Context (deref : nat → field) (tag : string).

Lemma GetTagPath_fuel_le k k' f flag path :
  (k ≤ k')%nat →
  GetTagPath k deref f tag flag = Some path →
  GetTagPath k' deref f tag flag = Some path.
Proof.
  induction 1 as [|k' _ IH]; [done|]. intros H.
  by apply GetTagPath_more_fuel, IH.
Qed.

Lemma strict_at f n :
  ancestors deref f n →
  GetTagPath (S n) deref f tag false
  = Some (if allPresent (segments n deref f tag)
          then String.concat "." (rev (segments n deref f tag)) else "").
Proof.
  unfold segments.
  induction 1 as [f Hroot | f p n Hpar Hanc IH]; rewrite GetTagPath_step.
  - cbn [lineage map]. unfold allPresent. cbn [forallb rev app String.concat].
    rewrite Hroot.
    destruct (decide (tagSegment f tag = "")) as [Heq|Hne].
    + by rewrite bool_decide_eq_true_2 by assumption.
    + by rewrite bool_decide_eq_false_2 by assumption.
  - cbn [lineage map]. rewrite Hpar, IH.
    set (segs := map (λ g, tagSegment g tag) (lineage n deref (deref p))).
    change (allPresent (tagSegment f tag :: segs))
      with (negb (bool_decide (tagSegment f tag = "")) && allPresent segs).
    destruct (decide (tagSegment f tag = "")) as [Heq|Hne];
      [by rewrite bool_decide_eq_true_2 by assumption|].
    rewrite (bool_decide_eq_false_2 (tagSegment f tag = "")) by assumption.
    cbn [negb andb mbind option_bind].
    destruct (allPresent segs) eqn:Hall; [|reflexivity].
    assert (String.concat "." (rev segs) ≠ "") as Hpath.
    { intros Hc. apply concat_empty in Hc.
      - apply (f_equal length) in Hc. rewrite length_rev in Hc.
        subst segs. by destruct n.
      - apply Forall_rev. by apply allPresent_Forall. }
    rewrite bool_decide_eq_false_2 by assumption. cbn [andb].
    rewrite decide_False by assumption. cbn [rev].
    rewrite concat_snoc; [reflexivity|].
    intros Hc. apply (f_equal length) in Hc. rewrite length_rev in Hc.
    subst segs. by destruct n.
Qed.

Lemma lenient_at f n :
  ancestors deref f n →
  GetTagPath (S n) deref f tag true
  = Some (String.concat "." (rev (leading (segments n deref f tag)))).
Proof.
  unfold segments.
  induction 1 as [f Hroot | f p n Hpar Hanc IH]; rewrite GetTagPath_step.
  - cbn [lineage map leading]. rewrite Hroot.
    by destruct (decide (tagSegment f tag = "")).
  - cbn [lineage map leading]. rewrite Hpar, IH.
    destruct (decide (tagSegment f tag = "")) as [Heq|Hne]; [reflexivity|].
    cbn [mbind option_bind]. rewrite andb_false_r.
    set (run := leading (map (λ g, tagSegment g tag) (lineage n deref (deref p)))).
    destruct (decide (String.concat "." (rev run) = "")) as [Hc|Hc].
    + apply concat_empty in Hc; [|apply Forall_rev, leading_Forall].
      apply (f_equal (@rev string)) in Hc. rewrite rev_involutive in Hc.
      by rewrite Hc.
    + cbn [rev]. rewrite concat_snoc; [reflexivity|].
      intros Hr. by rewrite Hr in Hc.
Qed.
End Shape.

(** X14. The path under the strict policy. On a finite parent chain,
    [GetTagPath] with [ignoreParentTagMissing] false returns the own
    segments of the whole chain, from the root down to the field, joined by
    dots, when every one of them is present; and the empty string as soon
    as one is missing, wherever in the chain. *)
Theorem GetTagPath_strict_path (deref : nat → field) (f : field) (n fuel : nat)
    (tag : string) :
  ancestors deref f n → (n < fuel)%nat →
  GetTagPath fuel deref f tag false
  = Some (if allPresent (segments n deref f tag)
          then String.concat "." (rev (segments n deref f tag)) else "").
Proof.
  intros Hanc Hlt. apply (GetTagPath_fuel_le deref tag (S n)); [lia|].
  by apply strict_at.
Qed.

Lemma GetTagPath_strict_path_witness :
  GetTagPath 5 chain3 (chain3 2) "json" false
  = Some (if allPresent (segments 2 chain3 (chain3 2) "json")
          then String.concat "." (rev (segments 2 chain3 (chain3 2) "json"))
          else "").
Proof.
  apply (GetTagPath_strict_path chain3 (chain3 2) 2 5 "json"); [|lia].
  apply (ancestors_step chain3 (chain3 2) 1 1); [reflexivity|].
  apply (ancestors_step chain3 (chain3 1) 0 0); [reflexivity|].
  apply ancestors_root. reflexivity.
Defined.

(** X15. The path under the lenient policy. On a finite parent chain,
    [GetTagPath] with [ignoreParentTagMissing] true returns the own
    segments from the field upwards as far as they are present, joined by
    dots in root-to-field order: the chain is cut at the first ancestor
    without a segment, and what lies above the cut does not count. *)
Theorem GetTagPath_lenient_path (deref : nat → field) (f : field) (n fuel : nat)
    (tag : string) :
  ancestors deref f n → (n < fuel)%nat →
  GetTagPath fuel deref f tag true
  = Some (String.concat "." (rev (leading (segments n deref f tag)))).
Proof.
  intros Hanc Hlt. apply (GetTagPath_fuel_le deref tag (S n)); [lia|].
  by apply lenient_at.
Qed.

Lemma GetTagPath_lenient_path_witness :
  GetTagPath 5 chain3 (chain3 2) "yaml" true
  = Some (String.concat "." (rev (leading (segments 2 chain3 (chain3 2) "yaml")))).
Proof.
  apply (GetTagPath_lenient_path chain3 (chain3 2) 2 5 "yaml"); [|lia].
  apply (ancestors_step chain3 (chain3 2) 1 1); [reflexivity|].
  apply (ancestors_step chain3 (chain3 1) 0 0); [reflexivity|].
  apply ancestors_root. reflexivity.
Defined.

(** X16. The flag matters only when the strict path is empty: whenever
    [GetTagPath] with [ignoreParentTagMissing] false returns a non-empty
    path, it returns the same path with the flag true. *)
Theorem GetTagPath_flags_agree (fuel : nat) (deref : nat → field) (f : field)
    (tag path : string) :
  GetTagPath fuel deref f tag false = Some path → path ≠ "" →
  GetTagPath fuel deref f tag true = Some path.
Proof.
  revert f path. induction fuel as [|fuel IH]; intros f path; [discriminate|].
  rewrite !GetTagPath_step.
  destruct (decide (tagSegment f tag = "")); [done|].
  destruct (parent f) as [p|]; [|done].
  destruct (GetTagPath fuel deref (deref p) tag false) as [parentTag|] eqn:Hp;
    [|discriminate].
  cbn [mbind option_bind]. rewrite andb_true_r.
  destruct (decide (parentTag = "")) as [->|Hne].
  - rewrite bool_decide_eq_true_2 by reflexivity. by intros [= <-].
  - rewrite bool_decide_eq_false_2 by assumption. intros Hpath _.
    rewrite (IH _ _ Hp Hne). cbn [mbind option_bind]. rewrite andb_false_r.
    by rewrite decide_False by assumption.
Qed.

Lemma GetTagPath_flags_agree_witness :
  GetTagPath 3 chain3 (chain3 2) "json" true = Some "g.p.x".
Proof.
  apply (GetTagPath_flags_agree 3 chain3 (chain3 2) "json" "g.p.x");
    [reflexivity | discriminate].
Defined.

Lemma occurs_append (c : ascii) (a b : string) :
  occurs c (a +:+ b) = occurs c a || occurs c b.
Proof.
  induction a as [|x a IH]; [reflexivity|].
  change (Ascii.eqb x c || occurs c (a +:+ b)
          = Ascii.eqb x c || occurs c a || occurs c b).
  by rewrite IH, orb_assoc.
Qed.

Lemma occurs_firstSegment (val : string) : occurs "," (firstSegment val) = false.
Proof.
  induction val as [|c val IH]; [reflexivity|]. cbn.
  destruct (Ascii.eqb c ",") eqn:Hc; [reflexivity|]. cbn. by rewrite Hc.
Qed.

Lemma occurs_tagSegment (f : field) (tag : string) :
  occurs "," (tagSegment f tag) = false.
Proof.
  unfold tagSegment. destruct (Lookup (Tag f) tag); [apply occurs_firstSegment | reflexivity].
Qed.

(** X17. Tag options never reach the path: whatever [GetTagPath] returns
    contains no comma, so what follows the first comma of a tag value, such
    as omitempty, is dropped at every level of the chain. *)
Theorem GetTagPath_no_comma (fuel : nat) (deref : nat → field) (f : field)
    (tag path : string) (ignoreParentTagMissing : bool) :
  GetTagPath fuel deref f tag ignoreParentTagMissing = Some path →
  occurs "," path = false.
Proof.
  revert f path. induction fuel as [|fuel IH]; intros f path; [discriminate|].
  rewrite GetTagPath_step.
  destruct (decide (tagSegment f tag = "")); [by intros [= <-]|].
  destruct (parent f) as [p|]; [|intros [= <-]; apply occurs_tagSegment].
  destruct (GetTagPath fuel deref (deref p) tag ignoreParentTagMissing)
    as [parentTag|] eqn:Hp; [|discriminate].
  cbn [mbind option_bind].
  destruct (bool_decide (parentTag = "") && negb ignoreParentTagMissing);
    [by intros [= <-]|].
  destruct (decide (parentTag = "")); intros [= <-]; [apply occurs_tagSegment|].
  rewrite !occurs_append, (IH _ _ Hp), occurs_tagSegment. reflexivity.
Qed.

Lemma GetTagPath_no_comma_witness :
  occurs "," "g.p" = false.
Proof.
  apply (GetTagPath_no_comma 2 chain3 (chain3 1) "json" "g.p" false).
  reflexivity.
Defined.

(** X18. Under the lenient policy a tagged field always gets a path:
    with [ignoreParentTagMissing] true the result is empty exactly when the
    field's own segment is, and otherwise ends with that segment. *)
Theorem GetTagPath_lenient_own_segment (fuel : nat) (deref : nat → field)
    (f : field) (tag path : string) :
  GetTagPath fuel deref f tag true = Some path →
  (path = "" ↔ tagSegment f tag = "")
  ∧ ∃ front, path = front +:+ tagSegment f tag.
Proof.
  destruct fuel as [|fuel]; [discriminate|]. rewrite GetTagPath_step.
  destruct (decide (tagSegment f tag = "")) as [Hseg|Hseg].
  - intros [= <-]. split; [done|]. exists "". by rewrite Hseg.
  - destruct (parent f) as [p|].
    + destruct (GetTagPath fuel deref (deref p) tag true) as [parentTag|];
        [|discriminate].
      cbn [mbind option_bind]. rewrite andb_false_r.
      destruct (decide (parentTag = "")); intros [= <-].
      * split; [done|]. by exists "".
      * split; [|exists (parentTag +:+ "."); by rewrite append_assoc].
        split; [|done]. intros Hc. by apply append_empty in Hc as [? _].
    + intros [= <-]. split; [done|]. by exists "".
Qed.

Lemma GetTagPath_lenient_own_segment_witness :
  ("x" = "" ↔ tagSegment (untaggedParent 1) "json" = "")
  ∧ ∃ front, "x" = front +:+ tagSegment (untaggedParent 1) "json".
Proof.
  apply (GetTagPath_lenient_own_segment 2 untaggedParent (untaggedParent 1) "json" "x").
  reflexivity.
Defined.

(** The two policies on the chain of three: the json segments are all
    present, the yaml segment of the leaf has no ancestor to join. *)
Example GetTagPath_chain3_paths :
  String.concat "." (rev (segments 2 chain3 (chain3 2) "json")) = "g.p.x"
  ∧ allPresent (segments 2 chain3 (chain3 2) "yaml") = false
  ∧ String.concat "." (rev (leading (segments 2 chain3 (chain3 2) "yaml"))) = "c".
Proof. repeat split. Qed.
